(** * Release helper: commit-log parser, changelog renderer and release flow

    A shallow embedding of [util/release/src]: the static configuration
    [gitConfig], the log parser [parseCommits] with [getCommitDetail] and
    [assertCommitType], the renderer [renderChangeLogMarkdown] and the
    flow [generateChangelog] with [createGitHubRelease].

    ECMAScript strings are sequences of UTF-16 code units; a code unit is
    an [N].  [undefined] is [None].  A thrown exception is [Throw]. *)

From Stdlib Require Import List NArith ZArith String Ascii Bool Arith Lia.
Import ListNotations.

(* ===================================================================== *)
(** * Strings of the host language *)
(* ===================================================================== *)

Module JS.

Definition jsstring := list N.

(** An ASCII literal of the source, as code units. *)
Definition lit (s : string) : jsstring :=
  map N_of_ascii (list_ascii_of_string s).

Fixpoint eqb (a b : jsstring) : bool :=
  match a, b with
  | [], [] => true
  | x :: a', y :: b' => N.eqb x y && eqb a' b'
  | _, _ => false
  end.

(** [s.startsWith(needle)] *)
Fixpoint startsWith (needle s : jsstring) : bool :=
  match needle, s with
  | [], _ => true
  | x :: needle', y :: s' => N.eqb x y && startsWith needle' s'
  | _ :: _, [] => false
  end.

(** [parts.join(sep)] *)
Fixpoint join (sep : jsstring) (parts : list jsstring) : jsstring :=
  match parts with
  | [] => []
  | [p] => p
  | p :: rest => p ++ sep ++ join sep rest
  end.

Definition cons_head (c : N) (pieces : list jsstring) : list jsstring :=
  match pieces with
  | p :: ps => (c :: p) :: ps
  | [] => [[c]]
  end.

(** [s.split(sep)] for a non-empty separator: the occurrences of [sep] are
    found from left to right, without overlap; [skip] counts the code units
    of a separator that has just been found and is being passed over. *)
Fixpoint split_from (sep : jsstring) (skip : nat) (s : jsstring) : list jsstring :=
  match s with
  | [] => [[]]
  | c :: s' =>
      match skip with
      | S k => split_from sep k s'
      | O =>
          if startsWith sep s
          then [] :: split_from sep (List.length sep - 1) s'
          else cons_head c (split_from sep 0 s')
      end
  end.

(** [s.split(sep)]; an empty separator splits between all code units. *)
Definition split (sep s : jsstring) : list jsstring :=
  match sep with
  | [] => map (fun c => [c]) s
  | _ :: _ => split_from sep 0 s
  end.

(** [arr.toSpliced(0, 1)] *)
Definition toSpliced_0_1 {A} (arr : list A) : list A := tl arr.

(** LineTerminator: LF, CR, LS, PS.  The regular expression atom [.]
    matches every code unit but these. *)
Definition is_line_terminator (c : N) : bool :=
  N.eqb c 10 || N.eqb c 13 || N.eqb c 8232 || N.eqb c 8233.

(** WhiteSpace and LineTerminator, what [trim] and [parseInt] strip:
    TAB, LF, VT, FF, CR, SP, NBSP, U+1680, U+2000..U+200A, LS, PS,
    U+202F, U+205F, U+3000, U+FEFF. *)
Definition is_white_space (c : N) : bool :=
  (N.leb 9 c && N.leb c 13) || N.eqb c 32 || N.eqb c 160 || N.eqb c 5760
  || (N.leb 8192 c && N.leb c 8202) || N.eqb c 8232 || N.eqb c 8233
  || N.eqb c 8239 || N.eqb c 8287 || N.eqb c 12288 || N.eqb c 65279.

Fixpoint trimStart (s : jsstring) : jsstring :=
  match s with
  | c :: s' => if is_white_space c then trimStart s' else s
  | [] => []
  end.

Definition trimEnd (s : jsstring) : jsstring := rev (trimStart (rev s)).

(** [s.trim()] *)
Definition trim (s : jsstring) : jsstring := trimEnd (trimStart s).

(** The lower-case image of one code unit, as far as it matters for a
    prefix test against an ASCII literal: [A-Z] go to [a-z], KELVIN SIGN
    U+212A goes to [k], U+0130 goes to [i] followed by U+0307.  Every other
    code unit has an image outside ASCII (or is its own image) and is left
    as it is. *)
Definition toLowerCase_unit (c : N) : jsstring :=
  (if N.leb 65 c && N.leb c 90 then [c + 32]
   else if N.eqb c 8490 then [107]
   else if N.eqb c 304 then [105; 775]
   else [c])%N.

(** [s.toLowerCase()] *)
Definition toLowerCase (s : jsstring) : jsstring := flat_map toLowerCase_unit s.

(** The value of a digit in the given radix. *)
Definition digit_value (radix c : N) : option N :=
  let v :=
    (if N.leb 48 c && N.leb c 57 then Some (c - 48)
     else if N.leb 97 c && N.leb c 122 then Some (c - 97 + 10)
     else if N.leb 65 c && N.leb c 90 then Some (c - 65 + 10)
     else None)%N in
  match v with
  | Some d => if N.ltb d radix then Some d else None
  | None => None
  end.

Fixpoint digits_value (radix acc : N) (s : jsstring) : N :=
  match s with
  | c :: s' =>
      match digit_value radix c with
      | Some d => digits_value radix (acc * radix + d)%N s'
      | None => acc
      end
  | [] => acc
  end.

(** The digits of [parseInt] after sign and prefix: [None] is NaN. *)
Definition parse_digits (radix : N) (s : jsstring) : option Z :=
  match s with
  | c :: _ =>
      match digit_value radix c with
      | Some _ => Some (Z.of_N (digits_value radix 0 s))
      | None => None
      end
  | [] => None
  end.

Definition strip_hex_prefix (s : jsstring) : N * jsstring :=
  match s with
  | 48 :: x :: s' => if N.eqb x 120 || N.eqb x 88 then (16, s') else (10, s)
  | _ => (10, s)
  end%N.

(** [parseInt(s)] with no radix argument, as a mathematical integer;
    [None] is NaN.  [undefined] is first turned into the string
    ["undefined"], which has no digits. *)
Definition parseInt (arg : option jsstring) : option Z :=
  match arg with
  | None => None
  | Some s =>
      let s1 := trimStart s in
      let '(negative, s2) :=
        match s1 with
        | 45 :: r => (true, r)
        | 43 :: r => (false, r)
        | _ => (false, s1)
        end%N in
      let '(radix, s3) := strip_hex_prefix s2 in
      match parse_digits radix s3 with
      | Some v => Some (if negative then Z.opp v else v)
      | None => None
      end
  end.

(** [new Date(n * 1000)] for [n] from [parseInt]: the time value in
    milliseconds, [None] for an invalid date (NaN, or beyond the
    8.64e15 ms of TimeClip). *)
Definition Date_of_seconds (n : option Z) : option Z :=
  match n with
  | Some v =>
      let ms := (v * 1000)%Z in
      if Z.leb (Z.abs ms) 8640000000000000 then Some ms else None
  | None => None
  end.

(** A [Set] of strings: unique values in insertion order. *)
Definition Set_add (x : jsstring) (s : list jsstring) : list jsstring :=
  if existsb (eqb x) s then s else s ++ [x].

(** Exceptions. *)
Inductive exn : Type :=
| TypeError
| Error (message : jsstring).

Inductive result (A : Type) : Type :=
| Ok (a : A)
| Throw (e : exn).

Arguments Ok {A} a.
Arguments Throw {A} e.

Definition bind {A B} (r : result A) (k : A -> result B) : result B :=
  match r with
  | Ok a => k a
  | Throw e => Throw e
  end.

(** [arr.reduce(f, init)] for a callback that may throw. *)
Fixpoint reduce {A B} (f : B -> A -> result B) (arr : list A) (init : B) : result B :=
  match arr with
  | [] => Ok init
  | x :: arr' => bind (f init x) (reduce f arr')
  end.

End JS.

Import JS.

Notation "'let*' x ':=' c1 'in' c2" := (bind c1 (fun x => c2))
  (at level 10, x name, c1 at level 200, c2 at level 200).

(* ===================================================================== *)
(** * Static configuration: [gitConfig] *)
(* ===================================================================== *)

(** [CommitType = keyof typeof gitConfig['commitTypes']] *)
Inductive CommitType : Type :=
| ct_build | ct_chore | ct_ci | ct_docs | ct_feat | ct_fix
| ct_perf | ct_refactor | ct_revert | ct_style | ct_test.

(** [Object.keys(gitConfig.commitTypes)]: the keys in the order of the
    object literal. *)
Definition commitTypes_keys : list CommitType :=
  [ct_build; ct_chore; ct_ci; ct_docs; ct_feat; ct_fix;
   ct_perf; ct_refactor; ct_revert; ct_style; ct_test].

(** The key of an entry of [gitConfig.commitTypes], as a string. *)
Definition commitType_name (t : CommitType) : jsstring :=
  match t with
  | ct_build => lit "build"
  | ct_chore => lit "chore"
  | ct_ci => lit "ci"
  | ct_docs => lit "docs"
  | ct_feat => lit "feat"
  | ct_fix => lit "fix"
  | ct_perf => lit "perf"
  | ct_refactor => lit "refactor"
  | ct_revert => lit "revert"
  | ct_style => lit "style"
  | ct_test => lit "test"
  end.

(** [gitConfig.commitTypes[key].title] *)
Definition commitType_title (t : CommitType) : jsstring :=
  match t with
  | ct_build => lit "Build"
  | ct_chore => lit "Chores"
  | ct_ci => lit "CI"
  | ct_docs => lit "Documentation"
  | ct_feat => lit "Features"
  | ct_fix => lit "Fixes"
  | ct_perf => lit "Performance"
  | ct_refactor => lit "Refactor"
  | ct_revert => lit "Revert"
  | ct_style => lit "Styles"
  | ct_test => lit "Testing"
  end.

Definition CommitType_eqb (a b : CommitType) : bool :=
  match a, b with
  | ct_build, ct_build | ct_chore, ct_chore | ct_ci, ct_ci | ct_docs, ct_docs
  | ct_feat, ct_feat | ct_fix, ct_fix | ct_perf, ct_perf
  | ct_refactor, ct_refactor | ct_revert, ct_revert | ct_style, ct_style
  | ct_test, ct_test => true
  | _, _ => false
  end.

(** The line feed, ['\n'] in the source. *)
Definition LF : jsstring := [10%N].

(** [gitConfig.markers] *)
Definition markers_begin : jsstring := Eval vm_compute in lit "__BEGIN__".
Definition markers_body : jsstring := Eval vm_compute in lit "__BODY__".
Definition markers_files : jsstring := Eval vm_compute in lit "__FILES__".
Definition markers_delim : jsstring := Eval vm_compute in lit "__DELIM__".

(** [gitConfig.placeholders], those that [getGitLogFormat] uses. *)
Definition placeholders_commitHashAbbr : jsstring := lit "%h".
Definition placeholders_authorName : jsstring := lit "%an".
Definition placeholders_authorDateUnix : jsstring := lit "%at".
Definition placeholders_subject : jsstring := lit "%s".
Definition placeholders_body : jsstring := lit "%b".

(* ===================================================================== *)
(** * Data model *)
(* ===================================================================== *)

Record CommitDetail : Type := mkCommitDetail {
  detail_type : CommitType;
  detail_breaking : bool
}.

Record Commit : Type := mkCommit {
  commitHashAbbr : jsstring;
  authorName : jsstring;
  authorDate : option Z;
  subject : jsstring;
  files : list jsstring;
  type : CommitType;
  breaking : bool
}.

(** The keys of a [CommitGroup]: [CommitType | 'breaking']. *)
Inductive GroupKey : Type :=
| key_breaking
| key_type (t : CommitType).

Definition GroupKey_eqb (a b : GroupKey) : bool :=
  match a, b with
  | key_breaking, key_breaking => true
  | key_type x, key_type y => CommitType_eqb x y
  | _, _ => false
  end.

(** [CommitGroup]: an object whose own keys are kept in the order in which
    they were first assigned, which is the order [Object.entries] lists
    them in. *)
Definition CommitGroup := list (GroupKey * list Commit).

(** [acc[key]] *)
Fixpoint group_get (key : GroupKey) (acc : CommitGroup) : option (list Commit) :=
  match acc with
  | [] => None
  | (k, v) :: acc' => if GroupKey_eqb key k then Some v else group_get key acc'
  end.

(** [acc[key] = value]: an existing key keeps its place, a new key goes
    last. *)
Fixpoint group_set (key : GroupKey) (value : list Commit) (acc : CommitGroup) : CommitGroup :=
  match acc with
  | [] => [(key, value)]
  | (k, v) :: acc' =>
      if GroupKey_eqb key k then (k, value) :: acc'
      else (k, v) :: group_set key value acc'
  end.

(* ===================================================================== *)
(** * The commit-log parser *)
(* ===================================================================== *)

(** The exception of [assertCommitType]. *)
Definition commitType_error (type : jsstring) : exn :=
  Error (lit "Commit type " ++ [34%N] ++ type ++ [34%N]
         ++ lit " does not match allowed types by config-conventional.").

(** [assertCommitType]: [Object.keys(gitConfig.commitTypes).includes(type)],
    with the narrowing of [type] to a [CommitType] made explicit.  The
    argument is [None], which the message shows as [undefined], when the
    match of the caller failed. *)
Definition assertCommitType (type : option jsstring) : result CommitType :=
  match type with
  | Some name =>
      match find (fun t => eqb (commitType_name t) name) commitTypes_keys with
      | Some t => Ok t
      | None => Throw (commitType_error name)
      end
  | None => Throw (commitType_error (lit "undefined"))
  end.

(** One alternative of the subject pattern
    [^(build|chore|...|test)(\!?):] at the start of [subject]: the type
    name, then [!] if it is there (the optional group is greedy), then the
    colon.  The result is the pair of captures [(type, breakingInType)]. *)
Definition match_alternative (subject : jsstring) (t : CommitType)
  : option (jsstring * jsstring) :=
  let name := commitType_name t in
  if startsWith (name ++ lit "!:") subject then Some (name, lit "!")
  else if startsWith (name ++ lit ":") subject then Some (name, [])
  else None.

(** [subject.match(`^(${Object.keys(gitConfig.commitTypes).join('|')})(\\!?):`)]:
    the alternatives are tried in the order of the keys. *)
Fixpoint match_subject_in (keys : list CommitType) (subject : jsstring)
  : option (jsstring * jsstring) :=
  match keys with
  | [] => None
  | t :: keys' =>
      match match_alternative subject t with
      | Some captures => Some captures
      | None => match_subject_in keys' subject
      end
  end.

Definition match_subject (subject : jsstring) : option (jsstring * jsstring) :=
  match_subject_in commitTypes_keys subject.

Definition opt_eqb (a : option jsstring) (b : jsstring) : bool :=
  match a with
  | Some x => eqb x b
  | None => false
  end.

(** [getCommitDetail(subject, body)] *)
Definition getCommitDetail (subject : jsstring) (body : option jsstring)
  : result CommitDetail :=
  let '(type, breakingInType) :=
    match match_subject subject with
    | Some (t, b) => (Some t, Some b)
    | None => (None, None)
    end in
  let breaking :=
    opt_eqb breakingInType (lit "!")
    || match body with
       | Some b => startsWith (lit "breaking change:") (toLowerCase b)
       | None => false
       end in
  let* type := assertCommitType type in
  Ok (mkCommitDetail type breaking).

(** [getGitLogFormat()] *)
Definition getGitLogFormat : jsstring :=
  join [] [
    markers_begin;
    join markers_delim [
      placeholders_commitHashAbbr;
      placeholders_authorName;
      placeholders_authorDateUnix;
      placeholders_subject
    ];
    markers_body;
    placeholders_body;
    markers_files
  ].

(** A trailing group [([\s\S]+)?]: all that is left, or [undefined] when
    nothing is left. *)
Definition rest_group (s : jsstring) : option jsstring :=
  match s with
  | [] => None
  | _ :: _ => Some s
  end.

Definition split_here (needle s : jsstring) : option (jsstring * jsstring) :=
  if startsWith needle s then Some ([], skipn (List.length needle) s) else None.

(** The last occurrence of [needle] in [s]: what is before it and what is
    after it. *)
Fixpoint split_last (needle s : jsstring) : option (jsstring * jsstring) :=
  match s with
  | [] => split_here needle s
  | c :: s' =>
      match split_last needle s' with
      | Some (before, after) => Some (c :: before, after)
      | None => split_here needle s
      end
  end.

(** [([\s\S]+)?__FILES__([\s\S]+)?] at the start of [r].  The body group is
    greedy: it is tried first, from its longest extent down to one code
    unit, so it ends at the last files marker that leaves it non-empty;
    when there is none the group is skipped and the files marker has to be
    at the start of [r].  The captures are [(body, files)]. *)
Definition match_body_files (r : jsstring) : option (option jsstring * option jsstring) :=
  let skipped :=
    match split_here markers_files r with
    | Some (_, after) => Some (None, rest_group after)
    | None => None
    end in
  match r with
  | [] => skipped
  | c :: r' =>
      match split_last markers_files r' with
      | Some (before, after) => Some (Some (c :: before), rest_group after)
      | None => skipped
      end
  end.

(** The pattern of [parseCommits], [(H)__BODY__(B)?__FILES__(F)?] with [H]
    any run of code units that are not line terminators and [B], [F] any
    non-empty run of code units, at the start of [t].  The header group is
    greedy and stays on one line: the longest header is tried first, a
    shorter one when the rest of the pattern fails after it.  The captures
    are [(header, body, files)]. *)
Fixpoint match_record_at (t : jsstring)
  : option (jsstring * option jsstring * option jsstring) :=
  let here :=
    match split_here markers_body t with
    | Some (_, r) =>
        match match_body_files r with
        | Some (body, files) => Some ([], body, files)
        | None => None
        end
    | None => None
    end in
  match t with
  | [] => here
  | c :: t' =>
      if is_line_terminator c then here
      else
        match match_record_at t' with
        | Some (header, body, files) => Some (c :: header, body, files)
        | None => here
        end
  end.

(** [curr.match(new RegExp(...))]: the pattern is not anchored, the first
    start position at which it matches wins. *)
Fixpoint match_record (curr : jsstring)
  : option (jsstring * option jsstring * option jsstring) :=
  match match_record_at curr with
  | Some captures => Some captures
  | None =>
      match curr with
      | [] => None
      | _ :: curr' => match_record curr'
      end
  end.

(** The part of the callback of [reduce] in [parseCommits] that builds the
    commit of one record.  A failed match leaves [header] undefined, and
    [header.split] throws; an absent files group leaves [files] undefined,
    and [files.split] throws; a header of fewer than four fields leaves
    [subject] undefined, and [subject.match] in [getCommitDetail] throws.
    The properties of the object literal are evaluated in the order in
    which they are written. *)
Definition parseRecord (curr : jsstring) : result Commit :=
  let '(header, body, files) :=
    match match_record curr with
    | Some (h, b, f) => (Some h, b, f)
    | None => (None, None, None)
    end in
  match header with
  | None => Throw TypeError
  | Some header =>
      let fields := split markers_delim header in
      let commitHashAbbr := nth_error fields 0 in
      let authorName := nth_error fields 1 in
      let authorDateUnix := nth_error fields 2 in
      let subject := nth_error fields 3 in
      let authorDate := Date_of_seconds (parseInt authorDateUnix) in
      match files with
      | None => Throw TypeError
      | Some files =>
          let files := filter (fun f => negb (eqb f [])) (split LF files) in
          match subject with
          | None => Throw TypeError
          | Some subject =>
              let* detail := getCommitDetail subject body in
              Ok (mkCommit (match commitHashAbbr with Some h => h | None => [] end)
                           (match authorName with Some a => a | None => [] end)
                           authorDate subject files
                           (detail_type detail) (detail_breaking detail))
          end
      end
  end.

(** The callback of [reduce] in [parseCommits]; the set [contributors] of
    the enclosing function is threaded with the accumulator. *)
Definition parseCommits_step (state : CommitGroup * list jsstring) (curr : jsstring)
  : result (CommitGroup * list jsstring) :=
  let '(acc, contributors) := state in
  let* commit := parseRecord curr in
  let contributors := Set_add (authorName commit) contributors in
  if breaking commit then
    Ok (group_set key_breaking
          (match group_get key_breaking acc with Some l => l | None => [] end ++ [commit])
          acc,
        contributors)
  else
    Ok (group_set (key_type (type commit))
          (match group_get (key_type (type commit)) acc with
           | Some l => l ++ [commit]
           | None => [commit]
           end)
          acc,
        contributors).

(** [parseCommits(output)]: the pair [(commitGroups, contributors)]. *)
Definition parseCommits (output : jsstring) : result (CommitGroup * list jsstring) :=
  reduce parseCommits_step (toSpliced_0_1 (split markers_begin output)) ([], []).

(* ===================================================================== *)
(** * The changelog renderer *)
(* ===================================================================== *)

(** [`- (${commit.commitHashAbbr}) ${commit.subject}`] *)
Definition bullet (commit : Commit) : jsstring :=
  lit "- (" ++ commitHashAbbr commit ++ lit ") " ++ subject commit.

(** [commits.map(commit => ...).join('\n')] *)
Definition bullets (commits : list Commit) : jsstring :=
  join LF (map bullet commits).

(** The first statement of the renderer: the breaking section, appended to
    the empty [output] when the breaking bucket is an array that is not
    empty. *)
Definition render_breaking (commitGroups : CommitGroup) : jsstring :=
  match group_get key_breaking commitGroups with
  | Some commits =>
      if Nat.ltb 0 (List.length commits)
      then lit "## Breaking Changes:" ++ LF ++ bullets commits
      else []
  | None => []
  end.

(** The body of the loop over [Object.entries(commitGroups)]: [continue]
    for the breaking key and for an empty bucket, one section appended to
    [output] otherwise. *)
Definition render_entry (output : jsstring) (entry : GroupKey * list Commit) : jsstring :=
  let '(key, commits) := entry in
  match key with
  | key_breaking => output
  | key_type t =>
      if Nat.ltb (List.length commits) 1 then output
      else output ++ LF ++ lit "## " ++ commitType_title t ++ lit ":" ++ LF
                  ++ bullets commits
  end.

(** [[...contributors].map(contributor => `@${contributor}`).join(', ')] *)
Definition render_contributors (contributors : list jsstring) : jsstring :=
  join (lit ", ") (map (fun contributor => lit "@" ++ contributor) contributors).

(** [renderChangeLogMarkdown], from the result of [getCommits] on. *)
Definition renderChangeLogMarkdown_body (commits : CommitGroup * list jsstring) : jsstring :=
  let '(commitGroups, contributors) := commits in
  let output := [] in
  let output := output ++ render_breaking commitGroups in
  let output := fold_left render_entry commitGroups output in
  let output := output ++ LF ++ lit "## Thanks:" ++ LF in
  let output := output ++ render_contributors contributors in
  trim output.

(* ===================================================================== *)
(** * Collaborators: processes, console, HTTP *)
(* ===================================================================== *)

(** [GitHubReleaseRequest] *)
Record GitHubReleaseRequest : Type := mkGitHubReleaseRequest {
  req_name : jsstring;
  req_tag_name : jsstring;
  req_body : jsstring;
  req_target_commitish : jsstring
}.

(** [GitHubReleaseResponse], the field that is read. *)
Record GitHubReleaseResponse : Type := mkGitHubReleaseResponse {
  html_url : jsstring
}.

(** What a run does to the world outside, in order. *)
Inductive event : Type :=
| RunCommand (command : jsstring) (args : list jsstring)
| ConsoleLog (message : jsstring)
| AxiosPost (url : jsstring) (authorization : jsstring) (data : GitHubReleaseRequest).

(** An asynchronous function: from the events so far to the events after
    it, with its result or the reason of its rejection.  Every promise is
    awaited where it is made, so the events are in program order. *)
Definition IO (A : Type) : Type := list event -> list event * result A.

Definition IO_ret {A} (a : A) : IO A := fun trace => (trace, Ok a).

Definition IO_throw {A} (e : exn) : IO A := fun trace => (trace, Throw e).

Definition IO_bind {A B} (m : IO A) (k : A -> IO B) : IO B :=
  fun trace =>
    match m trace with
    | (trace', Ok a) => k a trace'
    | (trace', Throw e) => (trace', Throw e)
    end.

Notation "'await' x ':=' c1 'in' c2" := (IO_bind c1 (fun x => c2))
  (at level 10, x name, c1 at level 200, c2 at level 200).

Notation "'await_' c1 'in' c2" := (IO_bind c1 (fun _ => c2))
  (at level 10, c1 at level 200, c2 at level 200).

(** [console.log(message)] *)
Definition console_log (message : jsstring) : IO unit :=
  fun trace => (trace ++ [ConsoleLog message], Ok tt).

Section Collaborators.

(** [process.env.GITHUB_TOKEN] *)
Variable env_GITHUB_TOKEN : option jsstring.

(** What a child process answers: its standard output without the final
    newline, or the rejection of execa. *)
Variable execa : list event -> jsstring -> list jsstring -> result jsstring.

(** What the release API answers. *)
Variable axios : list event -> jsstring -> jsstring -> GitHubReleaseRequest
                 -> result GitHubReleaseResponse.

(** [runCommand(command, args)] *)
Definition runCommand (command : jsstring) (args : list jsstring) : IO jsstring :=
  fun trace => (trace ++ [RunCommand command args], execa trace command args).

(** [getParentHashFromVersionTag(tag)] *)
Definition getParentHashFromVersionTag (tag : jsstring) : IO jsstring :=
  runCommand (lit "git") [lit "rev-parse"; tag ++ lit "^{}"].

(** The arguments of the log reader in [getCommits]. *)
Definition getCommits_args (from to : jsstring) : list jsstring :=
  [ lit "--no-pager";
    lit "log";
    lit "--name-only";
    lit "--pretty=format:" ++ [34%N] ++ getGitLogFormat ++ [34%N];
    from ++ lit "..." ++ to ].

(** [getCommits({ from, to })] *)
Definition getCommits (from to : jsstring) : IO (CommitGroup * list jsstring) :=
  await output := runCommand (lit "git") (getCommits_args from to) in
  match parseCommits output with
  | Ok commits => IO_ret commits
  | Throw e => IO_throw e
  end.

(** [createGitHubPush()] *)
Definition createGitHubPush : IO unit :=
  await_ runCommand (lit "git") [lit "push"; lit "--follow-tags"] in
  IO_ret tt.

(** [!process.env.GITHUB_TOKEN]: an unset variable and the empty string
    are both falsy. *)
Definition token_missing : bool :=
  match env_GITHUB_TOKEN with
  | None => true
  | Some token => eqb token []
  end.

(** [createGitHubRelease({ tag, body, commitHash, repo, owner })] *)
Definition createGitHubRelease (tag body commitHash repo owner : jsstring) : IO unit :=
  if token_missing then
    IO_throw (Error (lit "No " ++ [34%N] ++ lit "GH_TOKEN" ++ [34%N]
                     ++ lit " found in environment variables."))
  else
    let payload :=
      mkGitHubReleaseRequest (lit "Release v" ++ tag) tag body commitHash in
    let url := lit "https://api.github.com/repos/" ++ owner ++ lit "/" ++ repo
               ++ lit "/releases" in
    let authorization :=
      lit "Bearer " ++ match env_GITHUB_TOKEN with Some t => t | None => [] end in
    await res := (fun trace => (trace ++ [AxiosPost url authorization payload],
                                axios trace url authorization payload)) in
    console_log (lit "Release published: " ++ html_url res).

(** [renderChangeLogMarkdown({ from, to })] *)
Definition renderChangeLogMarkdown (from to : jsstring) : IO jsstring :=
  await commits := getCommits from to in
  IO_ret (renderChangeLogMarkdown_body commits).

(** [generateChangelog({ from, to, owner, repo, dryRun })] *)
Definition generateChangelog (from to owner repo : jsstring) (dryRun : bool) : IO unit :=
  await markdown :=
    renderChangeLogMarkdown from (if dryRun then lit "HEAD" else to ++ lit "^") in
  await_ console_log markdown in
  if dryRun then
    console_log (lit "Skipping github push and release because dry run was set...")
  else
    await_ createGitHubPush in
    await commitHash := getParentHashFromVersionTag to in
    createGitHubRelease to markdown commitHash repo owner.

End Collaborators.

(* ===================================================================== *)
(** * Vocabulary of the specification *)
(* ===================================================================== *)

(** [s.includes(needle)]: [needle] occurs somewhere in [s]. *)
Fixpoint includes (needle s : jsstring) : bool :=
  startsWith needle s
  || match s with
     | [] => false
     | _ :: s' => includes needle s'
     end.

(** The records of a log blob: what [parseCommits] hands to [reduce]. *)
Definition records (output : jsstring) : list jsstring :=
  toSpliced_0_1 (split markers_begin output).

(** The commits of a list of records, in log order, when every record
    parses. *)
Fixpoint parseRecords (segments : list jsstring) : result (list Commit) :=
  match segments with
  | [] => Ok []
  | curr :: rest =>
      let* commit := parseRecord curr in
      let* commits := parseRecords rest in
      Ok (commit :: commits)
  end.

(** The bucket a commit belongs to. *)
Definition bucket_key (commit : Commit) : GroupKey :=
  if breaking commit then key_breaking else key_type (type commit).

(** What [parseCommits_step] does with the commit of a record once it is
    built. *)
Definition add_commit (state : CommitGroup * list jsstring) (commit : Commit)
  : CommitGroup * list jsstring :=
  let '(acc, contributors) := state in
  (group_set (bucket_key commit)
     (match group_get (bucket_key commit) acc with
      | Some l => l
      | None => []
      end ++ [commit])
     acc,
   Set_add (authorName commit) contributors).

(** Two strings differ at a position that both have: no string starts
    with both. *)
Fixpoint clash (a b : jsstring) : bool :=
  match a, b with
  | x :: a', y :: b' => negb (N.eqb x y) || clash a' b'
  | _, _ => false
  end.

(** The commits of a bucket; an absent key is an empty bucket. *)
Definition bucket (key : GroupKey) (commitGroups : CommitGroup) : list Commit :=
  match group_get key commitGroups with
  | Some commits => commits
  | None => []
  end.

(** [sum(len(bucket) for bucket in groups)] *)
Definition total_commits (commitGroups : CommitGroup) : nat :=
  list_sum (map (fun entry => List.length (snd entry)) commitGroups).

(** The subject begins with one of the eleven type names, an optional [!]
    and a colon. *)
Definition begins_with_type_prefix (subject : jsstring) : bool :=
  existsb (fun t => startsWith (commitType_name t ++ lit ":") subject
                    || startsWith (commitType_name t ++ lit "!:") subject)
          commitTypes_keys.

(** The subject begins with a type name, [!] and a colon. *)
Definition has_breaking_marker (subject : jsstring) : bool :=
  existsb (fun t => startsWith (commitType_name t ++ lit "!:") subject)
          commitTypes_keys.

(** The body is there and its lower-case form starts with the marker. *)
Definition body_marks_breaking (body : option jsstring) : bool :=
  match body with
  | Some b => startsWith (lit "breaking change:") (toLowerCase b)
  | None => false
  end.

(** The fields of the header of a record, when the record pattern matches. *)
Definition record_fields (curr : jsstring) : option (list jsstring) :=
  match match_record curr with
  | Some (header, _, _) => Some (split markers_delim header)
  | None => None
  end.

(** The body group of a record ([None] also when nothing matches). *)
Definition record_body (curr : jsstring) : option jsstring :=
  match match_record curr with
  | Some (_, body, _) => body
  | None => None
  end.

(** The fourth field of the header of a record. *)
Definition record_subject (curr : jsstring) : option jsstring :=
  match record_fields curr with
  | Some fields => nth_error fields 3
  | None => None
  end.

(** ** Well-formed logs

    What the log reader prints for one commit, after the begin marker: the
    four header fields joined by the delimiter, the body marker, the body,
    the files marker, and the lines of changed files. *)
Record LogRecord : Type := mkLogRecord {
  log_hash : jsstring;
  log_author : jsstring;
  log_date : jsstring;
  log_subject : jsstring;
  log_body : jsstring;
  log_files : jsstring
}.

Definition format_header (r : LogRecord) : jsstring :=
  join markers_delim [log_hash r; log_author r; log_date r; log_subject r].

Definition format_record (r : LogRecord) : jsstring :=
  format_header r ++ markers_body ++ log_body r ++ markers_files ++ log_files r.

Definition format_log (rs : list LogRecord) : jsstring :=
  flat_map (fun r => markers_begin ++ format_record r) rs.

(** No occurrence of [marker] begins inside [text] when [marker] itself
    comes right after [text]. *)
Definition free_before (marker text : jsstring) : bool :=
  negb (includes marker (text ++ removelast marker)).

(** The layout of a record is well formed when the markers and the
    delimiter occur only where the format puts them, the header is on one
    line and the subject has a type prefix. *)
Definition well_formed_layout (r : LogRecord) : bool :=
  forallb (fun c => negb (is_line_terminator c)) (format_header r)
  && free_before markers_delim (log_hash r)
  && free_before markers_delim (log_author r)
  && free_before markers_delim (log_date r)
  && negb (includes markers_delim (log_subject r))
  && negb (includes markers_body
             (tl (markers_body ++ log_body r ++ markers_files ++ log_files r)))
  && negb (includes markers_files (tl (markers_files ++ log_files r)))
  && free_before markers_begin (format_record r)
  && begins_with_type_prefix (log_subject r).

(** A record is well formed when its layout is and its list of files is
    not empty. *)
Definition well_formed_record (r : LogRecord) : bool :=
  well_formed_layout r && negb (eqb (log_files r) []).

(** The commit that a record describes. *)
Definition describes (r : LogRecord) (commit : Commit) : Prop :=
  commitHashAbbr commit = log_hash r
  /\ authorName commit = log_author r
  /\ authorDate commit = Date_of_seconds (parseInt (Some (log_date r)))
  /\ subject commit = log_subject r
  /\ files commit = filter (fun f => negb (eqb f [])) (split LF (log_files r))
  /\ (startsWith (commitType_name (type commit) ++ lit ":") (log_subject r)
      || startsWith (commitType_name (type commit) ++ lit "!:") (log_subject r) = true)
  /\ breaking commit
     = has_breaking_marker (log_subject r)
       || body_marks_breaking (rest_group (log_body r)).

(** The keys of a list, each at its first occurrence. *)
Fixpoint first_occurrences (seen keys : list GroupKey) : list GroupKey :=
  match keys with
  | [] => []
  | k :: keys' =>
      if existsb (GroupKey_eqb k) seen then first_occurrences seen keys'
      else k :: first_occurrences (seen ++ [k]) keys'
  end.

(** One category section, as [render_entry] appends it. *)
Definition section (t : CommitType) (commits : list Commit) : jsstring :=
  LF ++ lit "## " ++ commitType_title t ++ lit ":" ++ LF ++ bullets commits.

(** The section of an entry of [commitGroups]; nothing for the breaking key
    and for an empty bucket. *)
Definition entry_section (entry : GroupKey * list Commit) : jsstring :=
  match entry with
  | (key_breaking, _) => []
  | (key_type _, []) => []
  | (key_type t, commits) => section t commits
  end.

(** The category sections in the order of the entries of [commitGroups]. *)
Definition sections_in_insertion_order (commitGroups : CommitGroup) : jsstring :=
  flat_map entry_section commitGroups.

(** The category sections in the order of the static table of commit
    types, as the specification words it. *)
Definition sections_in_table_order (commitGroups : CommitGroup) : jsstring :=
  flat_map (fun t => entry_section (key_type t, bucket (key_type t) commitGroups))
           commitTypes_keys.

Definition thanks (contributors : list jsstring) : jsstring :=
  LF ++ lit "## Thanks:" ++ LF ++ render_contributors contributors.

(** The renderer of the specification: sections in table order. *)
Definition render_in_table_order (commits : CommitGroup * list jsstring) : jsstring :=
  let '(commitGroups, contributors) := commits in
  trim (render_breaking commitGroups ++ sections_in_table_order commitGroups
        ++ thanks contributors).

(** Events that change the remote: a push, a request to the release API. *)
Definition is_remote_write (e : event) : bool :=
  match e with
  | RunCommand command args =>
      eqb command (lit "git")
      && match args with
         | sub :: _ => eqb sub (lit "push")
         | [] => false
         end
  | AxiosPost _ _ _ => true
  | ConsoleLog _ => false
  end.


(* ===================================================================== *)
(** * Example logs *)
(* ===================================================================== *)

(** [feat: add X], by Alice, one file, no body. *)
Definition record_feat : LogRecord :=
  mkLogRecord (lit "a1b2c3d") (lit "Alice") (lit "1700000000") (lit "feat: add X")
    [] (LF ++ lit "src/x.ts" ++ LF ++ LF).

(** [fix!: patch Y], by Bob, two files, a body without a marker. *)
Definition record_fix_bang : LogRecord :=
  mkLogRecord (lit "e4f5a6b") (lit "Bob") (lit "1700000100") (lit "fix!: patch Y")
    (lit "Patch the Y handler." ++ LF) (LF ++ lit "src/y.ts" ++ LF ++ lit "src/z.ts").

(** [fix: mend Y], by Bob. *)
Definition record_fix : LogRecord :=
  mkLogRecord (lit "0c9d8e7") (lit "Bob") (lit "1700000200") (lit "fix: mend Y")
    [] (LF ++ lit "src/y.ts").

(** [oops: did a thing]: a subject without a type prefix. *)
Definition record_oops : LogRecord :=
  mkLogRecord (lit "5f6e7d8") (lit "Carol") (lit "1700000300") (lit "oops: did a thing")
    [] (LF ++ lit "src/w.ts").

(** [feat: add X] with no changed files: the log ends at the files
    marker. *)
Definition record_no_files : LogRecord :=
  mkLogRecord (lit "a1b2c3d") (lit "Alice") (lit "1700000000") (lit "feat: add X")
    [] [].

(** A header of five fields: the subject is followed by the delimiter and
    more text. *)
Definition record_five_fields : LogRecord :=
  mkLogRecord (lit "a1b2c3d") (lit "Alice") (lit "1700000000")
    (lit "feat: add X" ++ markers_delim ++ lit "extra") [] (LF ++ lit "src/x.ts").

(** A header of three fields: hash, author and date. *)
Definition segment_three_fields : jsstring :=
  join markers_delim [lit "a1b2c3d"; lit "Alice"; lit "1700000000"]
  ++ markers_body ++ markers_files ++ LF ++ lit "src/x.ts".

Definition commit_feat : Commit :=
  mkCommit (lit "a1b2c3d") (lit "Alice") (Some 1700000000000%Z) (lit "feat: add X")
    [lit "src/x.ts"] ct_feat false.

Definition commit_fix_bang : Commit :=
  mkCommit (lit "e4f5a6b") (lit "Bob") (Some 1700000100000%Z) (lit "fix!: patch Y")
    [lit "src/y.ts"; lit "src/z.ts"] ct_fix true.

Definition commit_fix : Commit :=
  mkCommit (lit "0c9d8e7") (lit "Bob") (Some 1700000200000%Z) (lit "fix: mend Y")
    [lit "src/y.ts"] ct_fix false.

(* ===================================================================== *)
(** * The version tag and the legacy changelog *)
(* ===================================================================== *)

(** [`${tag} is not a valid semver`] for the falsy [tag] that [clean]
    returned: [null] is shown as [null], the empty string as nothing. *)
Definition semver_error (tag : option jsstring) : exn :=
  Error (match tag with Some t => t | None => lit "null" end
         ++ lit " is not a valid semver").

(** [!tag] for the result of [clean]: [null] and the empty string. *)
Definition tag_missing (tag : option jsstring) : bool :=
  match tag with
  | None => true
  | Some t => eqb t []
  end.

Section VersionTag.

Variable execa : list event -> jsstring -> list jsstring -> result jsstring.

(** [clean] of the semver package: the version, or [null]. *)
Variable clean : jsstring -> option jsstring.

(** [getLatestVersionTag()] *)
Definition getLatestVersionTag : IO jsstring :=
  await output :=
    runCommand execa (lit "git") [lit "describe"; lit "--tags"; lit "--abbrev=0"] in
  let tag := clean output in
  if tag_missing tag then IO_throw (semver_error tag)
  else IO_ret (match tag with Some t => t | None => [] end).

End VersionTag.

(** The class [ReleaseChangelog] of [changelog.old.ts].  Its markers,
    placeholders and table of commit types are those of [gitConfig]; its
    [assertCommitType], [getCommitDetail] and [parseCommits] are, word for
    word, the functions of the same names above, and [renderToMarkdown]
    after [getCommits] is [renderChangeLogMarkdown] after [getCommits]. *)
(** A synchronous method: from the command lines run so far to the command
    lines run after it, with its result or the exception it throws. *)
Definition Shell (A : Type) : Type := list jsstring -> list jsstring * result A.

Definition Shell_ret {A} (a : A) : Shell A := fun ran => (ran, Ok a).

Definition Shell_throw {A} (e : exn) : Shell A := fun ran => (ran, Throw e).

Definition Shell_bind {A B} (m : Shell A) (k : A -> Shell B) : Shell B :=
  fun ran =>
    match m ran with
    | (ran', Ok a) => k a ran'
    | (ran', Throw e) => (ran', Throw e)
    end.

Section ShellCommands.

(** [execSync(cmd, { encoding: 'utf-8' })]: the standard output of the
    command line, or the exception for a command that fails. *)
Variable execSync : list jsstring -> jsstring -> result jsstring.

(** [clean] of the semver package. *)
Variable clean : jsstring -> option jsstring.

Definition execSync_run (cmd : jsstring) : Shell jsstring :=
  fun ran => (ran ++ [cmd], execSync ran cmd).

(** [prepareGitFormat()] *)
Definition ReleaseChangelog_prepareGitFormat : jsstring :=
  join [] [
    markers_begin;
    join markers_delim [
      placeholders_commitHashAbbr;
      placeholders_authorName;
      placeholders_authorDateUnix;
      placeholders_subject
    ];
    markers_body;
    placeholders_body;
    markers_files
  ].

(** [getLatestVersionTag()] of the class. *)
Definition ReleaseChangelog_getLatestVersionTag : Shell jsstring :=
  Shell_bind (execSync_run (lit "git describe --tags --abbrev=0")) (fun output =>
  let tag := clean output in
  if tag_missing tag then Shell_throw (semver_error tag)
  else Shell_ret (match tag with Some t => t | None => [] end)).

(** An optional string argument in a condition: [undefined] and the empty
    string are falsy. *)
Definition truthy (s : option jsstring) : option jsstring :=
  match s with
  | Some (c :: s') => Some (c :: s')
  | _ => None
  end.

(** The upper end [toRef] of the range of [getCommits]. *)
Definition ReleaseChangelog_toRef (to : option jsstring) : jsstring :=
  match truthy to with
  | Some t => t ++ lit "^"
  | None => lit "HEAD"
  end.

(** The command line [cmd] of [getCommits]. *)
Definition ReleaseChangelog_cmd (fromRef toRef : jsstring) : jsstring :=
  lit "git --no-pager log --name-only --pretty=format:" ++ [34%N]
  ++ ReleaseChangelog_prepareGitFormat ++ [34%N] ++ lit " " ++ fromRef ++ lit "..." ++ toRef.

(** [getCommits({ from, to })] of the class. *)
Definition ReleaseChangelog_getCommits (from to : option jsstring)
  : Shell (CommitGroup * list jsstring) :=
  Shell_bind (match truthy from with
              | Some f => Shell_ret f
              | None => ReleaseChangelog_getLatestVersionTag
              end) (fun fromRef =>
  let toRef := ReleaseChangelog_toRef to in
  Shell_bind (execSync_run (ReleaseChangelog_cmd fromRef toRef)) (fun output =>
  match parseCommits output with
  | Ok commits => Shell_ret commits
  | Throw e => Shell_throw e
  end)).

(** [renderToMarkdown({ from, to })] *)
Definition ReleaseChangelog_renderToMarkdown (from to : option jsstring)
  : Shell jsstring :=
  Shell_bind (ReleaseChangelog_getCommits from to) (fun commits =>
  Shell_ret (renderChangeLogMarkdown_body commits)).

End ShellCommands.

(* ===================================================================== *)
(** * More vocabulary *)
(* ===================================================================== *)

(** The strings of a list, each at its first occurrence. *)
Fixpoint first_strings (seen names : list jsstring) : list jsstring :=
  match names with
  | [] => []
  | x :: names' =>
      if existsb (eqb x) seen then first_strings seen names'
      else x :: first_strings (seen ++ [x]) names'
  end.

(** The same letter, in either case: [y] is [x], or [x] is one of [A-Z]
    and [y] is the small letter for it. *)
Definition same_letter (x y : N) : Prop :=
  x = y \/ ((65 <= x)%N /\ (x <= 90)%N /\ y = (x + 32)%N).

(** No line terminator in the string. *)
Definition on_one_line (s : jsstring) : bool :=
  forallb (fun c => negb (is_line_terminator c)) s.

(** The events that [generateChangelog] adds to a trace. *)
Definition event_git_log (from to : jsstring) : event :=
  RunCommand (lit "git") (getCommits_args from to).

Definition event_git_push : event :=
  RunCommand (lit "git") [lit "push"; lit "--follow-tags"].

Definition event_git_rev_parse (tag : jsstring) : event :=
  RunCommand (lit "git") [lit "rev-parse"; tag ++ lit "^{}"].

Definition event_release (owner repo token tag body commitHash : jsstring) : event :=
  AxiosPost (lit "https://api.github.com/repos/" ++ owner ++ lit "/" ++ repo
             ++ lit "/releases")
            (lit "Bearer " ++ token)
            (mkGitHubReleaseRequest (lit "Release v" ++ tag) tag body commitHash).

(** The record has changed files: something follows the files marker. *)
Definition has_files (r : LogRecord) : bool := negb (eqb (log_files r) []).

(** A record whose header has more text after the subject, set off by the
    delimiter: one or more further fields. *)
Definition format_record_with (r : LogRecord) (extra : jsstring) : jsstring :=
  (format_header r ++ markers_delim ++ extra)
  ++ markers_body ++ log_body r ++ markers_files ++ log_files r.

(** The commit that the callback builds from the first four fields of a
    header, the body group and the files group. *)
Definition commit_of_fields (f0 f1 f2 f3 : jsstring) (body files : option jsstring)
  : result Commit :=
  match files with
  | None => Throw TypeError
  | Some files_text =>
      let* detail := getCommitDetail f3 body in
      Ok (mkCommit f0 f1 (Date_of_seconds (parseInt (Some f2))) f3
            (filter (fun f => negb (eqb f [])) (split LF files_text))
            (detail_type detail) (detail_breaking detail))
  end.

(** ** Example collaborators *)

(** A repository whose log is that of [feat: add X] and [fix!: patch Y]:
    the push is accepted and every tag resolves to one hash. *)
Definition example_execa (trace : list event) (command : jsstring)
  (args : list jsstring) : result jsstring :=
  match args with
  | sub :: _ =>
      if eqb sub (lit "push") then Ok []
      else if eqb sub (lit "rev-parse")
           then Ok (lit "e4f5a6b7c8d9e0f1a2b3c4d5e6f7a8b9c0d1e2f3")
           else Ok (format_log [record_feat; record_fix_bang])
  | [] => Throw (Error (lit "usage: git <command>"))
  end.

(** The same repository with a remote that rejects the push. *)
Definition example_execa_rejected (trace : list event) (command : jsstring)
  (args : list jsstring) : result jsstring :=
  match args with
  | sub :: _ =>
      if eqb sub (lit "push") then Throw (Error (lit "remote rejected"))
      else example_execa trace command args
  | [] => example_execa trace command args
  end.

(** A repository whose log has a commit without a type prefix. *)
Definition example_execa_oops (trace : list event) (command : jsstring)
  (args : list jsstring) : result jsstring :=
  Ok (format_log [record_feat; record_oops]).

(** A release API that accepts every request. *)
Definition example_axios (trace : list event) (url authorization : jsstring)
  (data : GitHubReleaseRequest) : result GitHubReleaseResponse :=
  Ok (mkGitHubReleaseResponse
        (lit "https://github.com/virtuallyunknown/nx-monorepo/releases/tag/1.1.0")).

(** A shell for the legacy class: [git describe] prints [v1.0.0], every
    other command the log of [feat: add X] and [fix!: patch Y]. *)
Definition example_execSync (ran : list jsstring) (cmd : jsstring) : result jsstring :=
  if startsWith (lit "git describe") cmd then Ok (lit "v1.0.0" ++ LF)
  else Ok (format_log [record_feat; record_fix_bang]).

(** A stand-in for [clean] that accepts [v1.0.0] only. *)
Definition example_clean (version : jsstring) : option jsstring :=
  if eqb (trim version) (lit "v1.0.0") then Some (lit "1.0.0") else None.

Definition example_commits : CommitGroup * list jsstring :=
  ([(key_type ct_feat, [commit_feat]); (key_breaking, [commit_fix_bang])],
   [lit "Alice"; lit "Bob"]).

(* ===================================================================== *)
(** * Basic facts about strings, keys and objects *)
(* ===================================================================== *)

Lemma eqb_eq (a b : jsstring) : eqb a b = true <-> a = b.
Proof.
  revert b; induction a as [|x a IH]; intros [|y b]; simpl; split;
    try discriminate; try reflexivity.
  - intros H. apply andb_true_iff in H as [Hx Hab].
    apply N.eqb_eq in Hx. apply IH in Hab. now subst.
  - intros H. injection H as -> ->.
    rewrite N.eqb_refl. simpl. now apply IH.
Qed.

Lemma eqb_refl (a : jsstring) : eqb a a = true.
Proof. now apply eqb_eq. Qed.

Lemma startsWith_app (needle rest : jsstring) : startsWith needle (needle ++ rest) = true.
Proof.
  induction needle as [|x needle IH]; simpl; [reflexivity|].
  now rewrite N.eqb_refl.
Qed.

Lemma startsWith_spec (needle s : jsstring) :
  startsWith needle s = true <-> exists rest, s = needle ++ rest.
Proof.
  split.
  - revert s; induction needle as [|x needle IH]; intros s H.
    + now exists s.
    + destruct s as [|y s]; simpl in H; [discriminate|].
      apply andb_true_iff in H as [Hx Hs].
      apply N.eqb_eq in Hx. destruct (IH _ Hs) as [rest ->].
      exists rest. now subst.
  - intros [rest ->]. apply startsWith_app.
Qed.

Lemma startsWith_skipn (needle s : jsstring) :
  startsWith needle s = true -> s = needle ++ skipn (List.length needle) s.
Proof.
  intros H. apply startsWith_spec in H as [rest ->].
  now rewrite skipn_app, skipn_all, Nat.sub_diag.
Qed.

Lemma includes_here (needle s : jsstring) :
  startsWith needle s = true -> includes needle s = true.
Proof. intros H. destruct s; simpl; now rewrite H. Qed.

Lemma includes_spec (needle s : jsstring) :
  includes needle s = true <-> exists before after, s = before ++ needle ++ after.
Proof.
  split.
  - induction s as [|c s IH]; simpl; intros H.
    + rewrite orb_false_r in H. apply startsWith_spec in H as [rest Hr].
      now exists [], rest.
    + apply orb_true_iff in H as [H|H].
      * apply startsWith_spec in H as [rest Hr]. now exists [], rest.
      * destruct (IH H) as (before & after & ->). now exists (c :: before), after.
  - intros (before & after & ->).
    induction before as [|c before IH].
    + cbn [app]. apply includes_here, startsWith_app.
    + simpl. rewrite IH. apply orb_true_r.
Qed.

Lemma CommitType_eqb_eq (a b : CommitType) : CommitType_eqb a b = true <-> a = b.
Proof. destruct a, b; simpl; split; congruence. Qed.

Lemma GroupKey_eqb_eq (a b : GroupKey) : GroupKey_eqb a b = true <-> a = b.
Proof.
  destruct a as [|x], b as [|y]; simpl; split; try congruence.
  - intros H. apply CommitType_eqb_eq in H. now subst.
  - intros H. apply CommitType_eqb_eq. congruence.
Qed.

Lemma GroupKey_eqb_refl (a : GroupKey) : GroupKey_eqb a a = true.
Proof. now apply GroupKey_eqb_eq. Qed.

Lemma GroupKey_eqb_neq (a b : GroupKey) : GroupKey_eqb a b = false <-> a <> b.
Proof.
  rewrite <- GroupKey_eqb_eq. destruct (GroupKey_eqb a b); split; congruence.
Qed.

Lemma GroupKey_eqb_sym (a b : GroupKey) : GroupKey_eqb a b = GroupKey_eqb b a.
Proof.
  destruct (GroupKey_eqb a b) eqn:E.
  - apply GroupKey_eqb_eq in E. subst. now rewrite GroupKey_eqb_refl.
  - symmetry. apply GroupKey_eqb_neq. apply GroupKey_eqb_neq in E. congruence.
Qed.

(** A string that does not contain the separator is one piece. *)
Lemma split_from_not_included (sep s : jsstring) :
  includes sep s = false -> split_from sep 0 s = [s].
Proof.
  induction s as [|c s IH]; intros H; [reflexivity|].
  simpl in H. apply orb_false_iff in H as [Hhere Hlater].
  cbn [split_from].
  replace (startsWith sep (c :: s)) with false
    by (symmetry; destruct sep; [discriminate Hhere | exact Hhere]).
  now rewrite (IH Hlater).
Qed.

Lemma records_not_included (output : jsstring) :
  includes markers_begin output = false -> records output = [].
Proof.
  intros H. unfold records, split.
  change markers_begin with (95 :: tl markers_begin)%N at 1.
  cbv iota. fold markers_begin.
  now rewrite split_from_not_included.
Qed.

(* ===================================================================== *)
(** * The empty log *)
(* ===================================================================== *)

(** C10.  For the empty blob, and for every blob in which the begin marker
    does not occur, [parseCommits] returns normally with no groups at all
    and no contributors. *)
Theorem parseCommits_without_begin_marker :
  parseCommits [] = Ok ([], [])
  /\ forall output : jsstring,
       includes markers_begin output = false ->
       parseCommits output = Ok ([], []).
Proof.
  split; [reflexivity|].
  intros output H. unfold parseCommits.
  fold (records output). now rewrite records_not_included.
Qed.

Lemma parseCommits_without_begin_marker_witness :
  includes markers_begin (lit "no marker in this text") = false
  /\ parseCommits (lit "no marker in this text") = Ok ([], []).
Proof.
  split; [reflexivity|].
  apply (proj2 parseCommits_without_begin_marker). reflexivity.
Defined.

(* ===================================================================== *)
(** * Objects: reading and writing a key *)
(* ===================================================================== *)

Lemma group_get_set_same (key : GroupKey) (value : list Commit) (acc : CommitGroup) :
  group_get key (group_set key value acc) = Some value.
Proof.
  induction acc as [|[k v] acc IH]; simpl.
  - now rewrite GroupKey_eqb_refl.
  - destruct (GroupKey_eqb key k) eqn:E; simpl; rewrite E; [reflexivity | exact IH].
Qed.

Lemma group_get_set_other (key key' : GroupKey) (value : list Commit) (acc : CommitGroup) :
  key <> key' ->
  group_get key' (group_set key value acc) = group_get key' acc.
Proof.
  intros Hneq. induction acc as [|[k v] acc IH]; simpl.
  - replace (GroupKey_eqb key' key) with false; [reflexivity|].
    symmetry. apply GroupKey_eqb_neq. congruence.
  - destruct (GroupKey_eqb key k) eqn:E; simpl.
    + apply GroupKey_eqb_eq in E. subst k.
      replace (GroupKey_eqb key' key) with false; [reflexivity|].
      symmetry. apply GroupKey_eqb_neq. congruence.
    + now rewrite IH.
Qed.

Lemma bucket_set (key key' : GroupKey) (value : list Commit) (acc : CommitGroup) :
  bucket key' (group_set key value acc)
  = if GroupKey_eqb key key' then value else bucket key' acc.
Proof.
  unfold bucket. destruct (GroupKey_eqb key key') eqn:E.
  - apply GroupKey_eqb_eq in E. subst. now rewrite group_get_set_same.
  - apply GroupKey_eqb_neq in E. now rewrite group_get_set_other.
Qed.

Lemma keys_set (key : GroupKey) (value : list Commit) (acc : CommitGroup) :
  map fst (group_set key value acc)
  = if existsb (GroupKey_eqb key) (map fst acc) then map fst acc
    else map fst acc ++ [key].
Proof.
  induction acc as [|[k v] acc IH]; simpl; [reflexivity|].
  destruct (GroupKey_eqb key k) eqn:E; simpl; [reflexivity|].
  rewrite IH. now destruct (existsb _ _).
Qed.

Lemma total_commits_set (key : GroupKey) (value : list Commit) (acc : CommitGroup) :
  total_commits (group_set key value acc) + List.length (bucket key acc)
  = total_commits acc + List.length value.
Proof.
  unfold total_commits, bucket.
  induction acc as [|[k v] acc IH]; simpl; [lia|].
  destruct (GroupKey_eqb key k) eqn:E; simpl; lia.
Qed.

Lemma existsb_GroupKey_In (key : GroupKey) (keys : list GroupKey) :
  existsb (GroupKey_eqb key) keys = true <-> In key keys.
Proof.
  rewrite existsb_exists. split.
  - intros (k & Hin & E). apply GroupKey_eqb_eq in E. now subst.
  - intros Hin. exists key. split; [assumption | apply GroupKey_eqb_refl].
Qed.

Lemma NoDup_keys_set (key : GroupKey) (value : list Commit) (acc : CommitGroup) :
  NoDup (map fst acc) -> NoDup (map fst (group_set key value acc)).
Proof.
  intros Hnd. rewrite keys_set.
  destruct (existsb (GroupKey_eqb key) (map fst acc)) eqn:E; [assumption|].
  apply NoDup_app; [assumption | repeat constructor; intros [] | ].
  intros k Hin [<-|[]].
  apply existsb_GroupKey_In in Hin. congruence.
Qed.

(* ===================================================================== *)
(** * The fold of [parseCommits] *)
(* ===================================================================== *)

(** The two branches of the callback do the same thing to the bucket of
    the key they pick. *)
Lemma parseCommits_step_eq (state : CommitGroup * list jsstring) (curr : jsstring) :
  parseCommits_step state curr
  = let* commit := parseRecord curr in Ok (add_commit state commit).
Proof.
  destruct state as [acc contributors]. unfold parseCommits_step, add_commit, bucket_key.
  destruct (parseRecord curr) as [commit|e]; simpl; [|reflexivity].
  destruct (breaking commit); [reflexivity|].
  destruct (group_get (key_type (type commit)) acc); reflexivity.
Qed.

Lemma reduce_parseCommits_step (segments : list jsstring) (state : CommitGroup * list jsstring) :
  reduce parseCommits_step segments state
  = let* commits := parseRecords segments in Ok (fold_left add_commit commits state).
Proof.
  revert state. induction segments as [|curr rest IH]; intros state; simpl.
  - reflexivity.
  - rewrite parseCommits_step_eq.
    destruct (parseRecord curr) as [commit|e]; simpl; [|reflexivity].
    rewrite IH. destruct (parseRecords rest); reflexivity.
Qed.

(** [parseCommits] is the grouping of the commits of its records, and
    fails with the exception of the first record that does not parse. *)
Lemma parseCommits_eq (output : jsstring) :
  parseCommits output
  = let* commits := parseRecords (records output) in
    Ok (fold_left add_commit commits ([], [])).
Proof. unfold parseCommits. apply reduce_parseCommits_step. Qed.

Lemma parseRecords_length (segments : list jsstring) (commits : list Commit) :
  parseRecords segments = Ok commits -> List.length commits = List.length segments.
Proof.
  revert commits. induction segments as [|curr rest IH]; intros commits; simpl.
  - now intros [= <-].
  - destruct (parseRecord curr) as [c|e]; simpl; [|discriminate].
    destruct (parseRecords rest) as [cs|e]; simpl; [|discriminate].
    intros [= <-]. simpl. f_equal. now apply IH.
Qed.

(** Every record of a log that parses as a whole parses on its own, to a
    commit of the list. *)
Lemma parseRecords_In (segments : list jsstring) (commits : list Commit) (curr : jsstring) :
  parseRecords segments = Ok commits -> In curr segments ->
  exists commit, parseRecord curr = Ok commit /\ In commit commits.
Proof.
  revert commits. induction segments as [|s rest IH]; intros commits; simpl; [intros _ []|].
  destruct (parseRecord s) as [c|e] eqn:Es; simpl; [|discriminate].
  destruct (parseRecords rest) as [cs|e]; simpl; [|discriminate].
  intros [= <-] [->|Hin].
  - exists c. split; [assumption | now left].
  - destruct (IH cs eq_refl Hin) as (commit & Hp & Hc).
    exists commit. split; [assumption | now right].
Qed.

(** A record that does not parse makes the whole log fail. *)
Lemma parseRecords_Throw (segments : list jsstring) (curr : jsstring) (e : exn) :
  In curr segments -> parseRecord curr = Throw e ->
  exists e', parseRecords segments = Throw e'.
Proof.
  intros Hin Hcurr.
  destruct (parseRecords segments) as [commits|e'] eqn:E; [|now exists e'].
  destruct (parseRecords_In _ _ _ E Hin) as (commit & Hp & _). congruence.
Qed.

Lemma parseCommits_Throw (output curr : jsstring) (e : exn) :
  In curr (records output) -> parseRecord curr = Throw e ->
  exists e', parseCommits output = Throw e'.
Proof.
  intros Hin Hcurr. rewrite parseCommits_eq.
  destruct (parseRecords_Throw _ _ _ Hin Hcurr) as [e' ->]. now exists e'.
Qed.

Lemma fold_add_commit_bucket (commits : list Commit) (state : CommitGroup * list jsstring)
  (key : GroupKey) :
  bucket key (fst (fold_left add_commit commits state))
  = bucket key (fst state)
    ++ filter (fun c => GroupKey_eqb (bucket_key c) key) commits.
Proof.
  revert state. induction commits as [|c commits IH]; intros [acc contributors]; simpl.
  - now rewrite app_nil_r.
  - rewrite IH. cbn [fst]. rewrite bucket_set.
    fold (bucket (bucket_key c) acc).
    destruct (GroupKey_eqb (bucket_key c) key) eqn:E.
    + apply GroupKey_eqb_eq in E. subst key. now rewrite <- app_assoc.
    + reflexivity.
Qed.

Lemma fold_add_commit_total (commits : list Commit) (state : CommitGroup * list jsstring) :
  total_commits (fst (fold_left add_commit commits state))
  = total_commits (fst state) + List.length commits.
Proof.
  revert state. induction commits as [|c commits IH]; intros [acc contributors]; simpl.
  - lia.
  - rewrite IH. cbn [fst].
    pose proof (total_commits_set (bucket_key c)
                  (bucket (bucket_key c) acc ++ [c]) acc) as H.
    rewrite length_app in H. simpl in H.
    fold (bucket (bucket_key c) acc). lia.
Qed.

Lemma fold_add_commit_NoDup (commits : list Commit) (state : CommitGroup * list jsstring) :
  NoDup (map fst (fst state)) ->
  NoDup (map fst (fst (fold_left add_commit commits state))).
Proof.
  revert state. induction commits as [|c commits IH]; intros [acc contributors]; simpl.
  - trivial.
  - intros Hnd. apply IH. cbn [fst]. now apply NoDup_keys_set.
Qed.

Lemma fold_add_commit_keys (commits : list Commit) (state : CommitGroup * list jsstring) :
  map fst (fst (fold_left add_commit commits state))
  = map fst (fst state)
    ++ first_occurrences (map fst (fst state)) (map bucket_key commits).
Proof.
  revert state. induction commits as [|c commits IH]; intros [acc contributors]; simpl.
  - now rewrite app_nil_r.
  - rewrite IH. cbn [fst]. rewrite keys_set.
    destruct (existsb (GroupKey_eqb (bucket_key c)) (map fst acc)); [reflexivity|].
    now rewrite <- app_assoc.
Qed.

(* ===================================================================== *)
(** * The subject pattern and [getCommitDetail] *)
(* ===================================================================== *)

Lemma startsWith_clash (a b s : jsstring) :
  clash a b = true -> startsWith a s = true -> startsWith b s = false.
Proof.
  revert b s. induction a as [|x a IH]; intros [|y b] [|z s]; simpl;
    try discriminate; try reflexivity.
  intros Hclash Ha. apply andb_true_iff in Ha as [Hxz Ha].
  apply N.eqb_eq in Hxz. subst z.
  destruct (N.eqb y x) eqn:Eyx; [|reflexivity]. simpl.
  apply N.eqb_eq in Eyx. subst y. rewrite N.eqb_refl in Hclash. simpl in Hclash.
  now apply IH.
Qed.

(** No subject begins with two different type prefixes: the type names,
    followed by [:] or by [!:], clash pairwise. *)
Lemma type_prefix_unique (t1 t2 : CommitType) (bang1 bang2 : bool) (s : jsstring) :
  startsWith (commitType_name t1 ++ (if bang1 then lit "!:" else lit ":")) s = true ->
  startsWith (commitType_name t2 ++ (if bang2 then lit "!:" else lit ":")) s = true ->
  t1 = t2 /\ bang1 = bang2.
Proof.
  intros H1 H2.
  destruct (clash (commitType_name t1 ++ (if bang1 then lit "!:" else lit ":"))
                  (commitType_name t2 ++ (if bang2 then lit "!:" else lit ":"))) eqn:E.
  - rewrite (startsWith_clash _ _ _ E H1) in H2. discriminate.
  - destruct t1, t2, bang1, bang2; try discriminate E; split; reflexivity.
Qed.

Lemma assertCommitType_name (t : CommitType) :
  assertCommitType (Some (commitType_name t)) = Ok t.
Proof. destruct t; reflexivity. Qed.

Lemma match_alternative_Some (s : jsstring) (t : CommitType) (name bang : jsstring) :
  match_alternative s t = Some (name, bang) ->
  name = commitType_name t
  /\ exists b : bool,
       bang = (if b then lit "!" else [])
       /\ startsWith (commitType_name t ++ (if b then lit "!:" else lit ":")) s = true.
Proof.
  unfold match_alternative.
  destruct (startsWith (commitType_name t ++ lit "!:") s) eqn:E1.
  - intros [= <- <-]. split; [reflexivity|]. now exists true.
  - destruct (startsWith (commitType_name t ++ lit ":") s) eqn:E2; [|discriminate].
    intros [= <- <-]. split; [reflexivity|]. now exists false.
Qed.

Lemma match_alternative_None (s : jsstring) (t : CommitType) :
  match_alternative s t = None <->
  startsWith (commitType_name t ++ lit ":") s
  || startsWith (commitType_name t ++ lit "!:") s = false.
Proof.
  unfold match_alternative.
  destruct (startsWith (commitType_name t ++ lit "!:") s),
           (startsWith (commitType_name t ++ lit ":") s); simpl; split; congruence.
Qed.

Lemma match_subject_in_Some (keys : list CommitType) (s name bang : jsstring) :
  match_subject_in keys s = Some (name, bang) ->
  exists (t : CommitType) (b : bool),
    In t keys /\ name = commitType_name t
    /\ bang = (if b then lit "!" else [])
    /\ startsWith (commitType_name t ++ (if b then lit "!:" else lit ":")) s = true.
Proof.
  induction keys as [|t keys IH]; simpl; [discriminate|].
  destruct (match_alternative s t) as [[n b']|] eqn:E.
  - intros [= -> ->]. apply match_alternative_Some in E as (-> & b & -> & Hs).
    exists t, b. repeat split; auto.
  - intros H. destruct (IH H) as (t' & b & Hin & Hn & Hb & Hs).
    exists t', b. repeat split; auto.
Qed.

Lemma match_subject_in_None (keys : list CommitType) (s : jsstring) :
  match_subject_in keys s = None <->
  existsb (fun t => startsWith (commitType_name t ++ lit ":") s
                    || startsWith (commitType_name t ++ lit "!:") s) keys = false.
Proof.
  induction keys as [|t keys IH]; simpl; [tauto|].
  destruct (match_alternative s t) as [c|] eqn:E.
  - split; [discriminate|]. intros H. apply orb_false_iff in H as [H _].
    apply match_alternative_None in H. congruence.
  - apply match_alternative_None in E. rewrite E. simpl. exact IH.
Qed.

Lemma match_subject_None (s : jsstring) :
  match_subject s = None <-> begins_with_type_prefix s = false.
Proof. apply match_subject_in_None. Qed.

(** The capture of the optional group is [!] exactly when the subject
    begins with a type name, [!] and a colon. *)
Lemma match_subject_bang (s name bang : jsstring) :
  match_subject s = Some (name, bang) ->
  eqb bang (lit "!") = has_breaking_marker s.
Proof.
  intros H. apply match_subject_in_Some in H as (t & b & Hin & -> & -> & Hs).
  destruct (has_breaking_marker s) eqn:E.
  - unfold has_breaking_marker in E. apply existsb_exists in E as (t' & _ & Hs').
    destruct (type_prefix_unique t t' b true s Hs Hs') as [_ ->]. reflexivity.
  - destruct b; [|reflexivity].
    assert (has_breaking_marker s = true) as Hm; [|congruence].
    apply existsb_exists. exists t. split; assumption.
Qed.

(** [getCommitDetail] returns normally exactly on the subjects with a type
    prefix; the type is the one of the prefix and the flag is as the
    specification words it. *)
Lemma getCommitDetail_Ok (s : jsstring) (body : option jsstring) (detail : CommitDetail) :
  getCommitDetail s body = Ok detail ->
  begins_with_type_prefix s = true
  /\ (startsWith (commitType_name (detail_type detail) ++ lit ":") s
      || startsWith (commitType_name (detail_type detail) ++ lit "!:") s = true)
  /\ detail_breaking detail = has_breaking_marker s || body_marks_breaking body.
Proof.
  unfold getCommitDetail.
  destruct (match_subject s) as [[name bang]|] eqn:E.
  - pose proof (match_subject_bang _ _ _ E) as Hbang.
    assert (Hprefix : begins_with_type_prefix s = true).
    { destruct (begins_with_type_prefix s) eqn:Ep; [reflexivity|].
      apply match_subject_None in Ep. congruence. }
    apply match_subject_in_Some in E as (t & b & Hin & -> & -> & Hs).
    rewrite assertCommitType_name. simpl. intros [= <-]. simpl.
    split; [assumption|]. split.
    + destruct b; rewrite Hs; [apply orb_true_r | reflexivity].
    + unfold opt_eqb, body_marks_breaking. now rewrite Hbang.
  - simpl. discriminate.
Qed.

Lemma getCommitDetail_Throw (s : jsstring) (body : option jsstring) :
  begins_with_type_prefix s = false ->
  getCommitDetail s body = Throw (commitType_error (lit "undefined")).
Proof.
  intros H. apply match_subject_None in H.
  unfold getCommitDetail. rewrite H. reflexivity.
Qed.

(** A record with all its parts whose subject has no type prefix fails in
    [assertCommitType]. *)
Lemma parseRecord_unrecognized_type (curr header files_text subject : jsstring)
  (body : option jsstring) :
  match_record curr = Some (header, body, Some files_text) ->
  nth_error (split markers_delim header) 3 = Some subject ->
  begins_with_type_prefix subject = false ->
  parseRecord curr = Throw (commitType_error (lit "undefined")).
Proof.
  intros Hm Hs Hp. unfold parseRecord. rewrite Hm, Hs.
  now rewrite (getCommitDetail_Throw subject body Hp).
Qed.

(* ===================================================================== *)
(** * One record *)
(* ===================================================================== *)

(** What a record that parses looks like. *)
Lemma parseRecord_Ok (curr : jsstring) (commit : Commit) :
  parseRecord curr = Ok commit ->
  exists header body files_text,
    match_record curr = Some (header, body, Some files_text)
    /\ nth_error (split markers_delim header) 3 = Some (subject commit)
    /\ getCommitDetail (subject commit) body
       = Ok (mkCommitDetail (type commit) (breaking commit))
    /\ files commit = filter (fun f => negb (eqb f [])) (split LF files_text).
Proof.
  unfold parseRecord.
  destruct (match_record curr) as [[[header body] files_opt]|]; [|discriminate].
  destruct files_opt as [files_text|]; [|discriminate].
  destruct (nth_error (split markers_delim header) 3) as [subj|] eqn:Es; [|discriminate].
  destruct (getCommitDetail subj body) as [[t b]|e] eqn:Ed; simpl; [|discriminate].
  intros [= <-]. simpl.
  exists header, body, files_text. repeat split; assumption.
Qed.

Lemma record_subject_Ok (curr : jsstring) (commit : Commit) :
  parseRecord curr = Ok commit -> record_subject curr = Some (subject commit).
Proof.
  intros H. apply parseRecord_Ok in H as (header & body & files_text & Hm & Hs & _).
  unfold record_subject, record_fields. now rewrite Hm.
Qed.

(** A record without a files group does not parse. *)
Lemma parseRecord_without_files (curr header : jsstring) (body : option jsstring) :
  match_record curr = Some (header, body, None) -> parseRecord curr = Throw TypeError.
Proof. intros H. unfold parseRecord. now rewrite H. Qed.

(** A record whose header has fewer than four fields does not parse, and
    neither does one the pattern does not match. *)
Lemma parseRecord_few_fields (curr : jsstring) :
  match record_fields curr with
  | Some fields => List.length fields < 4
  | None => True
  end ->
  parseRecord curr = Throw TypeError.
Proof.
  unfold record_fields, parseRecord.
  destruct (match_record curr) as [[[header body] files_opt]|]; [|reflexivity].
  intros Hlen. destruct files_opt as [files_text|]; [|reflexivity].
  destruct (nth_error (split markers_delim header) 3) eqn:E; [|reflexivity].
  assert (nth_error (split markers_delim header) 3 <> None) as Hn by congruence.
  apply nth_error_Some in Hn. lia.
Qed.

(* ===================================================================== *)
(** * Well-formed records parse *)
(* ===================================================================== *)

(** The conjuncts of a boolean conjunction that holds, as hypotheses. *)
Ltac conjuncts H := repeat (apply andb_true_iff in H as [H ?]).

Lemma includes_app_l (needle u v : jsstring) :
  includes needle u = true -> includes needle (u ++ v) = true.
Proof.
  intros H. apply includes_spec in H as (before & after & ->).
  apply includes_spec. exists before, (after ++ v). now rewrite <- !app_assoc.
Qed.

Lemma includes_app_false_l (needle u v : jsstring) :
  includes needle (u ++ v) = false -> includes needle u = false.
Proof.
  intros H. destruct (includes needle u) eqn:E; [|reflexivity].
  apply includes_app_l with (v := v) in E. congruence.
Qed.

Lemma includes_cons_false (needle : jsstring) (c : N) (s : jsstring) :
  includes needle (c :: s) = false ->
  startsWith needle (c :: s) = false /\ includes needle s = false.
Proof. simpl. intros H. now apply orb_false_iff in H. Qed.

Lemma startsWith_app_long (needle u v : jsstring) :
  List.length needle <= List.length u ->
  startsWith needle (u ++ v) = startsWith needle u.
Proof.
  revert u. induction needle as [|x needle IH]; intros [|y u]; simpl; intros Hlen;
    try reflexivity; try lia.
  rewrite IH by lia. reflexivity.
Qed.

Lemma split_from_skip (sep x rest : jsstring) :
  split_from sep (List.length x) (x ++ rest) = split_from sep 0 rest.
Proof. induction x as [|c x IH]; simpl; [reflexivity | exact IH]. Qed.

(** A piece in which the separator does not begin, followed by the
    separator, is the first piece of the split. *)
Lemma split_from_piece (sep piece rest : jsstring) :
  sep <> [] ->
  free_before sep piece = true ->
  split_from sep 0 (piece ++ sep ++ rest) = piece :: split_from sep 0 rest.
Proof.
  intros Hsep Hfree. unfold free_before in Hfree. apply negb_true_iff in Hfree.
  induction piece as [|c piece IH].
  - destruct sep as [|c0 sep']; [congruence|].
    cbn [app split_from].
    change (c0 :: sep' ++ rest) with ((c0 :: sep') ++ rest).
    rewrite startsWith_app.
    change (List.length (c0 :: sep') - 1) with (S (List.length sep') - 1).
    rewrite Nat.sub_succ, Nat.sub_0_r. now rewrite split_from_skip.
  - change ((c :: piece) ++ removelast sep) with (c :: (piece ++ removelast sep)) in Hfree.
    apply includes_cons_false in Hfree as [Hhere Hlater].
    cbn [app split_from].
    assert (startsWith sep (c :: piece ++ sep ++ rest) = false) as ->.
    { rewrite (app_removelast_last 0%N Hsep) at 2.
      rewrite <- app_assoc.
      change (c :: piece ++ removelast sep ++ [last sep 0%N] ++ rest)
        with ((c :: piece) ++ removelast sep ++ [last sep 0%N] ++ rest).
      rewrite app_assoc.
      rewrite startsWith_app_long; [exact Hhere|].
      rewrite length_app. cbn [List.length].
      rewrite (app_removelast_last 0%N Hsep) at 1.
      rewrite length_app. simpl. lia. }
    now rewrite (IH Hlater).
Qed.

Lemma split_piece (sep piece rest : jsstring) :
  sep <> [] ->
  free_before sep piece = true ->
  split sep (piece ++ sep ++ rest) = piece :: split sep rest.
Proof.
  intros Hsep Hfree. unfold split.
  destruct sep as [|c0 sep']; [congruence|]. now apply split_from_piece.
Qed.

Lemma split_not_included (sep s : jsstring) :
  sep <> [] -> includes sep s = false -> split sep s = [s].
Proof.
  intros Hsep H. unfold split.
  destruct sep as [|c0 sep']; [congruence|]. now apply split_from_not_included.
Qed.

(** The header of a well-formed record splits into its four fields. *)
Lemma split_header (r : LogRecord) :
  free_before markers_delim (log_hash r) = true ->
  free_before markers_delim (log_author r) = true ->
  free_before markers_delim (log_date r) = true ->
  includes markers_delim (log_subject r) = false ->
  split markers_delim (format_header r)
  = [log_hash r; log_author r; log_date r; log_subject r].
Proof.
  intros Hh Ha Hd Hs. unfold format_header. cbn [join].
  assert (markers_delim <> []) as Hne by discriminate.
  rewrite (split_piece _ _ _ Hne Hh), (split_piece _ _ _ Hne Ha),
    (split_piece _ _ _ Hne Hd), (split_not_included _ _ Hne Hs).
  reflexivity.
Qed.

Lemma split_here_app (needle rest : jsstring) :
  split_here needle (needle ++ rest) = Some ([], rest).
Proof.
  unfold split_here. rewrite startsWith_app.
  now rewrite skipn_app, skipn_all, Nat.sub_diag.
Qed.

Lemma split_here_None (needle s : jsstring) :
  includes needle s = false -> split_here needle s = None.
Proof.
  intros H. unfold split_here.
  destruct (startsWith needle s) eqn:E; [|reflexivity].
  apply includes_here in E. congruence.
Qed.

Lemma split_last_None (needle s : jsstring) :
  includes needle s = false -> split_last needle s = None.
Proof.
  induction s as [|c s IH]; intros H.
  - now apply split_here_None.
  - cbn [split_last]. pose proof H as H'.
    apply includes_cons_false in H' as [_ Hlater].
    rewrite (IH Hlater). now apply split_here_None.
Qed.

(** The last occurrence of a marker that does not occur again after
    itself. *)
Lemma split_last_app (needle before after : jsstring) :
  needle <> [] ->
  includes needle (tl (needle ++ after)) = false ->
  split_last needle (before ++ needle ++ after) = Some (before, after).
Proof.
  intros Hne Hlast. induction before as [|c before IH].
  - cbn [app]. destruct needle as [|c0 needle']; [congruence|].
    cbn [app tl] in Hlast.
    change ((c0 :: needle') ++ after) with (c0 :: (needle' ++ after)).
    cbn [split_last]. rewrite (split_last_None _ _ Hlast).
    change (c0 :: needle' ++ after) with ((c0 :: needle') ++ after).
    apply split_here_app.
  - cbn [app split_last]. now rewrite IH.
Qed.

Lemma match_body_files_format (body files_text : jsstring) :
  includes markers_files (tl (markers_files ++ files_text)) = false ->
  match_body_files (body ++ markers_files ++ files_text)
  = Some (rest_group body, rest_group files_text).
Proof.
  intros Hlast. assert (markers_files <> []) as Hne by discriminate.
  destruct body as [|c body].
  - cbn [app rest_group]. unfold match_body_files.
    rewrite split_here_app.
    destruct (markers_files ++ files_text) as [|c0 r'] eqn:E; [discriminate E|].
    cbn [tl] in Hlast. now rewrite (split_last_None _ _ Hlast).
  - cbn [app rest_group]. unfold match_body_files.
    now rewrite (split_last_app _ _ _ Hne Hlast).
Qed.

Lemma match_record_at_None (t : jsstring) :
  includes markers_body t = false -> match_record_at t = None.
Proof.
  induction t as [|c t IH]; intros H.
  - reflexivity.
  - pose proof H as H'. apply includes_cons_false in H' as [_ Hlater].
    cbn [match_record_at]. rewrite (split_here_None _ _ H), (IH Hlater).
    now destruct (is_line_terminator c).
Qed.

Lemma match_record_at_format (header body files_text : jsstring) :
  forallb (fun c => negb (is_line_terminator c)) header = true ->
  includes markers_body (tl (markers_body ++ body ++ markers_files ++ files_text)) = false ->
  includes markers_files (tl (markers_files ++ files_text)) = false ->
  match_record_at (header ++ markers_body ++ body ++ markers_files ++ files_text)
  = Some (header, rest_group body, rest_group files_text).
Proof.
  intros Hline Hbody Hfiles. induction header as [|c header IH].
  - cbn [app].
    destruct (markers_body ++ body ++ markers_files ++ files_text) as [|c0 t] eqn:E;
      [discriminate E|].
    cbn [tl] in Hbody. cbn [match_record_at].
    rewrite (match_record_at_None _ Hbody).
    rewrite <- E, split_here_app, (match_body_files_format _ _ Hfiles).
    now destruct (is_line_terminator c0).
  - cbn [forallb] in Hline. apply andb_true_iff in Hline as [Hc Hline].
    apply negb_true_iff in Hc.
    cbn [app match_record_at]. rewrite Hc, (IH Hline). reflexivity.
Qed.

Lemma match_record_of_at (curr : jsstring)
  (captures : jsstring * option jsstring * option jsstring) :
  match_record_at curr = Some captures -> match_record curr = Some captures.
Proof. intros H. destruct curr; cbn [match_record]; now rewrite H. Qed.

(** The record pattern finds the header, the body and the files of a
    well-formed record. *)
Lemma match_record_format (r : LogRecord) :
  well_formed_layout r = true ->
  match_record (format_record r)
  = Some (format_header r, rest_group (log_body r), rest_group (log_files r)).
Proof.
  intros Hwf. unfold well_formed_layout in Hwf.
  conjuncts Hwf.
  apply match_record_of_at, match_record_at_format;
    [assumption | now apply negb_true_iff | now apply negb_true_iff].
Qed.

Lemma getCommitDetail_prefix (s : jsstring) (body : option jsstring) :
  begins_with_type_prefix s = true ->
  exists detail, getCommitDetail s body = Ok detail.
Proof.
  intros H. unfold getCommitDetail.
  destruct (match_subject s) as [[name bang]|] eqn:E.
  - apply match_subject_in_Some in E as (t & b & _ & -> & _ & _).
    rewrite assertCommitType_name. simpl. eexists. reflexivity.
  - apply match_subject_None in E. congruence.
Qed.

(** A well-formed record parses to the commit it describes. *)
Lemma parseRecord_format (r : LogRecord) :
  well_formed_record r = true ->
  exists commit, parseRecord (format_record r) = Ok commit /\ describes r commit.
Proof.
  intros Hwf. unfold well_formed_record in Hwf.
  apply andb_true_iff in Hwf as [Hwf Hfiles].
  pose proof (match_record_format r Hwf) as Hm.
  unfold well_formed_layout in Hwf.
  conjuncts Hwf.
  repeat match goal with
         | H : negb _ = true |- _ => apply negb_true_iff in H
         end.
  unfold parseRecord. rewrite Hm.
  rewrite split_header by assumption.
  destruct (log_files r) as [|f0 fs] eqn:Ef; [discriminate|].
  cbn [rest_group nth_error].
  destruct (getCommitDetail_prefix (log_subject r) (rest_group (log_body r)))
    as [detail Hd]; [assumption|].
  rewrite Hd. cbn [bind]. eexists. split; [reflexivity|].
  apply getCommitDetail_Ok in Hd as (_ & Htype & Hbreaking).
  unfold describes. cbn. rewrite Ef. repeat split; assumption.
Qed.

Lemma well_formed_record_layout (rs : list LogRecord) :
  forallb well_formed_record rs = true -> forallb well_formed_layout rs = true.
Proof.
  induction rs as [|r rs IH]; simpl; [reflexivity|].
  intros H. apply andb_true_iff in H as [Hr Hrs].
  unfold well_formed_record in Hr. apply andb_true_iff in Hr as [Hr _].
  now rewrite Hr, IH.
Qed.

Lemma well_formed_layout_begin (r : LogRecord) :
  well_formed_layout r = true -> free_before markers_begin (format_record r) = true.
Proof.
  intros H. unfold well_formed_layout in H.
  conjuncts H. assumption.
Qed.

Lemma free_before_includes (marker text : jsstring) :
  free_before marker text = true -> includes marker text = false.
Proof.
  unfold free_before. intros H. apply negb_true_iff in H.
  exact (includes_app_false_l _ _ _ H).
Qed.

(** The pieces of a log of records with a well-formed layout. *)
Lemma split_from_format_log (r : LogRecord) (rs : list LogRecord) :
  forallb well_formed_layout (r :: rs) = true ->
  split_from markers_begin 0 (format_record r ++ format_log rs)
  = map format_record (r :: rs).
Proof.
  revert r. induction rs as [|r' rs IH]; intros r Hwf;
    cbn [forallb] in Hwf; apply andb_true_iff in Hwf as [Hr Hrest];
    apply well_formed_layout_begin in Hr.
  - cbn [format_log flat_map map]. rewrite app_nil_r.
    apply split_from_not_included. now apply free_before_includes.
  - cbn [format_log flat_map]. fold (format_log rs).
    rewrite <- app_assoc.
    rewrite split_from_piece by (assumption || discriminate).
    now rewrite (IH r' Hrest).
Qed.

(** The records of a log, whatever comes before the first begin marker,
    as long as the marker does not begin there. *)
Lemma records_format_log (junk : jsstring) (rs : list LogRecord) :
  free_before markers_begin junk = true ->
  forallb well_formed_layout rs = true ->
  records (junk ++ format_log rs) = map format_record rs.
Proof.
  intros Hjunk Hwf. unfold records, split.
  change markers_begin with (95 :: tl markers_begin)%N at 1.
  cbv iota. fold markers_begin.
  destruct rs as [|r rs].
  - cbn [format_log flat_map map]. rewrite app_nil_r.
    rewrite split_from_not_included; [reflexivity|].
    now apply free_before_includes.
  - cbn [format_log flat_map]. fold (format_log rs).
    rewrite <- app_assoc.
    rewrite split_from_piece by (assumption || discriminate).
    now rewrite split_from_format_log.
Qed.

Lemma parseRecords_app (a b : list jsstring) :
  parseRecords (a ++ b)
  = let* x := parseRecords a in
    let* y := parseRecords b in
    Ok (x ++ y).
Proof.
  induction a as [|curr a IH]; simpl.
  - now destruct (parseRecords b).
  - destruct (parseRecord curr) as [c|e]; simpl; [|reflexivity].
    rewrite IH. destruct (parseRecords a) as [x|e]; simpl; [|reflexivity].
    now destruct (parseRecords b).
Qed.

Lemma parseRecords_format (rs : list LogRecord) :
  forallb well_formed_record rs = true ->
  exists commits,
    parseRecords (map format_record rs) = Ok commits
    /\ Forall2 describes rs commits.
Proof.
  induction rs as [|r rs IH]; intros Hwf.
  - exists []. split; [reflexivity | constructor].
  - cbn [forallb] in Hwf. apply andb_true_iff in Hwf as [Hr Hrest].
    destruct (parseRecord_format r Hr) as (commit & Hp & Hdesc).
    destruct (IH Hrest) as (commits & Hps & Hall).
    exists (commit :: commits). split.
    + cbn [map parseRecords]. rewrite Hp, Hps. reflexivity.
    + now constructor.
Qed.

(* ===================================================================== *)
(** * Grouping *)
(* ===================================================================== *)

(** The groups of a log whose records all parse: every bucket is the
    sub-list, in log order, of the commits that belong to it; the keys are
    distinct and stand in the order of their first commit. *)
Lemma parseCommits_groups (output : jsstring) (commits : list Commit) :
  parseRecords (records output) = Ok commits ->
  exists commitGroups contributors,
    parseCommits output = Ok (commitGroups, contributors)
    /\ (forall key,
          bucket key commitGroups
          = filter (fun c => GroupKey_eqb (bucket_key c) key) commits)
    /\ NoDup (map fst commitGroups)
    /\ total_commits commitGroups = List.length commits
    /\ map fst commitGroups = first_occurrences [] (map bucket_key commits).
Proof.
  intros Hparse. rewrite parseCommits_eq, Hparse. cbn [bind].
  destruct (fold_left add_commit commits ([], [])) as [g cs] eqn:E.
  exists g, cs. split; [reflexivity|].
  replace g with (fst (fold_left add_commit commits ([], []))) by now rewrite E.
  repeat split.
  - intros key. now rewrite fold_add_commit_bucket.
  - apply fold_add_commit_NoDup. constructor.
  - now rewrite fold_add_commit_total.
  - now rewrite fold_add_commit_keys.
Qed.

Lemma parseCommits_Ok (output : jsstring) (state : CommitGroup * list jsstring) :
  parseCommits output = Ok state ->
  exists commits, parseRecords (records output) = Ok commits.
Proof.
  rewrite parseCommits_eq.
  destruct (parseRecords (records output)) as [commits|e]; [|discriminate].
  intros _. now exists commits.
Qed.

Lemma In_bucket (key : GroupKey) (commit : Commit) (commits : list Commit) :
  In commit (filter (fun c => GroupKey_eqb (bucket_key c) key) commits)
  <-> In commit commits
      /\ key = (if breaking commit then key_breaking else key_type (type commit)).
Proof.
  rewrite filter_In. fold (bucket_key commit). rewrite GroupKey_eqb_eq.
  split; intros [H1 H2]; split; congruence.
Qed.

(* ===================================================================== *)
(** * The renderer *)
(* ===================================================================== *)

Lemma render_entry_section (output : jsstring) (entry : GroupKey * list Commit) :
  render_entry output entry = output ++ entry_section entry.
Proof.
  destruct entry as [[|t] commits]; simpl.
  - now rewrite app_nil_r.
  - destruct commits as [|c commits]; simpl; [now rewrite app_nil_r | reflexivity].
Qed.

Lemma fold_render_entry (commitGroups : CommitGroup) (output : jsstring) :
  fold_left render_entry commitGroups output
  = output ++ sections_in_insertion_order commitGroups.
Proof.
  revert output. induction commitGroups as [|entry g IH]; intros output; simpl.
  - now rewrite app_nil_r.
  - rewrite IH, render_entry_section. now rewrite <- app_assoc.
Qed.

(** The loop of the renderer appends the sections entry by entry. *)
Lemma renderChangeLogMarkdown_body_eq (commitGroups : CommitGroup)
  (contributors : list jsstring) :
  renderChangeLogMarkdown_body (commitGroups, contributors)
  = trim (render_breaking commitGroups
          ++ sections_in_insertion_order commitGroups
          ++ thanks contributors).
Proof.
  unfold renderChangeLogMarkdown_body, thanks.
  rewrite fold_render_entry. cbn [app].
  now rewrite <- !app_assoc.
Qed.

Lemma trimStart_app (s rest : jsstring) :
  (exists c, In c s /\ is_white_space c = false) ->
  trimStart (s ++ rest) = trimStart s ++ rest.
Proof.
  induction s as [|x s IH]; intros (c & Hin & Hc); [destruct Hin|].
  simpl. destruct (is_white_space x) eqn:Ex; [|reflexivity].
  destruct Hin as [->|Hin]; [congruence|].
  apply IH. now exists c.
Qed.

Lemma trimEnd_app (before s : jsstring) :
  (exists c, In c s /\ is_white_space c = false) ->
  trimEnd (before ++ s) = before ++ trimEnd s.
Proof.
  intros (c & Hin & Hc). unfold trimEnd.
  rewrite rev_app_distr, trimStart_app.
  - now rewrite rev_app_distr, rev_involutive.
  - exists c. split; [now apply in_rev in Hin | assumption].
Qed.

(** The thanks section has a character that [trim] does not remove. *)
Lemma thanks_visible (before : jsstring) (contributors : list jsstring) :
  exists c, In c (before ++ thanks contributors) /\ is_white_space c = false.
Proof.
  exists 35%N. split; [|reflexivity].
  apply in_or_app. right. unfold thanks. simpl. auto.
Qed.

(* ===================================================================== *)
(** * The parser on well-formed and on malformed logs *)
(* ===================================================================== *)

(** A log of [N] well-formed records that all have files, whatever
    precedes its first begin marker, parses to [N] commits, one per record
    and the one the record describes.  Each commit is in the breaking
    bucket when its breaking flag is set and in the bucket of its type
    otherwise, and in no other bucket; every bucket keeps the log order;
    the lengths of the buckets add up to [N]. *)
Lemma parseCommits_records_with_files (junk : jsstring) (rs : list LogRecord) :
  free_before markers_begin junk = true ->
  forallb well_formed_record rs = true ->
  exists commits commitGroups contributors,
    parseCommits (junk ++ format_log rs) = Ok (commitGroups, contributors)
    /\ Forall2 describes rs commits
    /\ List.length commits = List.length rs
    /\ (forall key commit,
          In commit (bucket key commitGroups)
          <-> In commit commits
              /\ key = (if breaking commit then key_breaking
                        else key_type (type commit)))
    /\ (forall key,
          bucket key commitGroups
          = filter (fun c => GroupKey_eqb (bucket_key c) key) commits)
    /\ NoDup (map fst commitGroups)
    /\ total_commits commitGroups = List.length rs.
Proof.
  intros Hjunk Hwf.
  destruct (parseRecords_format rs Hwf) as (commits & Hparse & Hdesc).
  rewrite <- (records_format_log junk rs Hjunk (well_formed_record_layout rs Hwf))
    in Hparse.
  destruct (parseCommits_groups _ _ Hparse) as (g & cs & Hg & Hbucket & Hnd & Htotal & _).
  pose proof (Forall2_length Hdesc) as Hlen.
  exists commits, g, cs.
  split; [assumption|]. split; [assumption|]. split; [congruence|].
  split; [|split; [assumption|split; [assumption|congruence]]].
  intros key commit. rewrite Hbucket. apply In_bucket.
Qed.

Lemma well_formed_record_of_layout (rs : list LogRecord) :
  forallb well_formed_layout rs = true ->
  forallb has_files rs = true ->
  forallb well_formed_record rs = true.
Proof.
  induction rs as [|r rs IH]; cbn [forallb]; [reflexivity|].
  intros Hl Hf. apply andb_true_iff in Hl as [Hr Hrs].
  apply andb_true_iff in Hf as [Hfr Hfrs].
  rewrite (IH Hrs Hfrs), andb_true_r.
  unfold well_formed_record. fold (has_files r). now rewrite Hr, Hfr.
Qed.

(** The first record without files of a list that has one. *)
Lemma first_without_files (rs : list LogRecord) :
  forallb has_files rs = false ->
  exists before r after,
    rs = before ++ r :: after
    /\ forallb has_files before = true
    /\ log_files r = [].
Proof.
  induction rs as [|r rs IH]; cbn [forallb]; [discriminate|].
  destruct (has_files r) eqn:Er; cbn [andb].
  - intros H. destruct (IH H) as (before & r' & after & -> & Hb & Hr').
    exists (r :: before), r', after. repeat split; [|assumption].
    cbn [forallb]. now rewrite Er.
  - intros _. exists [], r, rs. repeat split.
    unfold has_files in Er. apply negb_false_iff, eqb_eq in Er. exact Er.
Qed.

(** The first record without files makes the log fail. *)
Lemma parseCommits_first_without_files (junk : jsstring)
  (before after : list LogRecord) (r : LogRecord) :
  free_before markers_begin junk = true ->
  forallb well_formed_record before = true ->
  well_formed_layout r = true ->
  log_files r = [] ->
  forallb well_formed_layout after = true ->
  parseCommits (junk ++ format_log (before ++ r :: after)) = Throw TypeError.
Proof.
  intros Hjunk Hbefore Hr Hfiles Hafter.
  assert (parseRecord (format_record r) = Throw TypeError) as He.
  { unfold parseRecord. now rewrite (match_record_format r Hr), Hfiles. }
  rewrite parseCommits_eq, records_format_log; [|assumption|].
  - rewrite map_app, parseRecords_app.
    destruct (parseRecords_format before Hbefore) as (commits & -> & _).
    cbn [bind map parseRecords]. now rewrite He.
  - rewrite forallb_app. cbn [forallb].
    now rewrite (well_formed_record_layout before Hbefore), Hr, Hafter.
Qed.

(** C1, on the code.  Take a log of [N] records whose layout is well
    formed, whatever precedes its first begin marker.  When every record
    has files, the log parses to [N] commits, one per record and the one
    the record describes; each commit is in the breaking bucket when its
    breaking flag is set and in the bucket of its type otherwise, and in
    no other bucket; every bucket keeps the log order; the lengths of the
    buckets add up to [N].  When some record has no files, [parseCommits]
    throws a [TypeError] and yields no commit at all. *)
Theorem parseCommits_well_formed_layout (junk : jsstring) (rs : list LogRecord) :
  free_before markers_begin junk = true ->
  forallb well_formed_layout rs = true ->
  (forallb has_files rs = true ->
   exists commits commitGroups contributors,
     parseCommits (junk ++ format_log rs) = Ok (commitGroups, contributors)
     /\ Forall2 describes rs commits
     /\ List.length commits = List.length rs
     /\ (forall key commit,
           In commit (bucket key commitGroups)
           <-> In commit commits
               /\ key = (if breaking commit then key_breaking
                         else key_type (type commit)))
     /\ (forall key,
           bucket key commitGroups
           = filter (fun c => GroupKey_eqb (bucket_key c) key) commits)
     /\ NoDup (map fst commitGroups)
     /\ total_commits commitGroups = List.length rs)
  /\ (forallb has_files rs = false ->
      parseCommits (junk ++ format_log rs) = Throw TypeError).
Proof.
  intros Hjunk Hlayout. split.
  - intros Hfiles.
    apply parseCommits_records_with_files; [assumption|].
    now apply well_formed_record_of_layout.
  - intros Hfiles.
    destruct (first_without_files rs Hfiles) as (before & r & after & -> & Hb & Hr).
    rewrite forallb_app in Hlayout. cbn [forallb] in Hlayout.
    apply andb_true_iff in Hlayout as [Hlb Hlayout].
    apply andb_true_iff in Hlayout as [Hlr Hla].
    apply parseCommits_first_without_files; try assumption.
    now apply well_formed_record_of_layout.
Qed.

Lemma parseCommits_well_formed_layout_witness :
  free_before markers_begin [] = true
  /\ forallb well_formed_layout [record_feat; record_fix_bang; record_fix] = true
  /\ forallb has_files [record_feat; record_fix_bang; record_fix] = true
  /\ forallb well_formed_layout [record_feat; record_no_files] = true
  /\ forallb has_files [record_feat; record_no_files] = false
  /\ (exists commits commitGroups contributors,
        parseCommits ([] ++ format_log [record_feat; record_fix_bang; record_fix])
        = Ok (commitGroups, contributors)
        /\ Forall2 describes [record_feat; record_fix_bang; record_fix] commits
        /\ List.length commits = 3
        /\ (forall key commit,
              In commit (bucket key commitGroups)
              <-> In commit commits
                  /\ key = (if breaking commit then key_breaking
                            else key_type (type commit)))
        /\ (forall key,
              bucket key commitGroups
              = filter (fun c => GroupKey_eqb (bucket_key c) key) commits)
        /\ NoDup (map fst commitGroups)
        /\ total_commits commitGroups = 3)
  /\ parseCommits ([] ++ format_log [record_feat; record_no_files]) = Throw TypeError.
Proof.
  repeat (split; [reflexivity|]).
  split.
  - apply (proj1 (parseCommits_well_formed_layout []
                    [record_feat; record_fix_bang; record_fix] eq_refl eq_refl)).
    reflexivity.
  - apply (proj2 (parseCommits_well_formed_layout []
                    [record_feat; record_no_files] eq_refl eq_refl)).
    reflexivity.
Defined.

(** C2.  A record whose subject does not begin with a type name, an
    optional [!] and a colon does not parse, and no log that has such a
    record parses: [parseCommits] throws, it returns no groups.  When the
    record has a files group the exception of the record is the one of
    [assertCommitType]. *)
Theorem parseCommits_unrecognized_type (output curr subject : jsstring) :
  In curr (records output) ->
  record_subject curr = Some subject ->
  begins_with_type_prefix subject = false ->
  (exists e, parseRecord curr = Throw e)
  /\ (exists e, parseCommits output = Throw e)
  /\ (forall header body files_text,
        match_record curr = Some (header, body, Some files_text) ->
        parseRecord curr = Throw (commitType_error (lit "undefined"))).
Proof.
  intros Hin Hsubject Hprefix.
  assert (forall header body files_text,
             match_record curr = Some (header, body, Some files_text) ->
             parseRecord curr = Throw (commitType_error (lit "undefined"))) as Hexn.
  { intros header body files_text Hm.
    apply (parseRecord_unrecognized_type curr header files_text subject body Hm);
      [|assumption].
    unfold record_subject, record_fields in Hsubject. now rewrite Hm in Hsubject. }
  assert (exists e, parseRecord curr = Throw e) as [e He].
  { destruct (parseRecord curr) as [commit|e] eqn:E; [|now exists e].
    pose proof (record_subject_Ok _ _ E) as Hs.
    apply parseRecord_Ok in E as (header & body & files_text & _ & _ & Hd & _).
    apply getCommitDetail_Ok in Hd as (Hp & _).
    congruence. }
  split; [now exists e|]. split; [exact (parseCommits_Throw _ _ _ Hin He) | exact Hexn].
Qed.

Lemma parseCommits_unrecognized_type_witness :
  In (format_record record_oops)
     (records (format_log [record_feat; record_oops; record_fix]))
  /\ record_subject (format_record record_oops) = Some (lit "oops: did a thing")
  /\ begins_with_type_prefix (lit "oops: did a thing") = false
  /\ (exists e, parseRecord (format_record record_oops) = Throw e)
  /\ (exists e, parseCommits (format_log [record_feat; record_oops; record_fix])
                = Throw e)
  /\ (forall header body files_text,
        match_record (format_record record_oops) = Some (header, body, Some files_text) ->
        parseRecord (format_record record_oops)
        = Throw (commitType_error (lit "undefined"))).
Proof.
  assert (In (format_record record_oops)
             (records (format_log [record_feat; record_oops; record_fix]))) as Hin
    by (vm_compute; right; left; reflexivity).
  split; [exact Hin|]. split; [reflexivity|]. split; [reflexivity|].
  apply (parseCommits_unrecognized_type
           (format_log [record_feat; record_oops; record_fix])
           (format_record record_oops) (lit "oops: did a thing"));
    [exact Hin | reflexivity | reflexivity].
Defined.

(** C3, as stated, fails: a header of five fields is accepted.  The record
    below has the fields [a1b2c3d], [Alice], [1700000000], [feat: add X]
    and [extra]; [parseCommits] returns the commit of the first four. *)
Lemma header_of_five_fields_accepted :
  In (format_record record_five_fields) (records (format_log [record_five_fields]))
  /\ record_fields (format_record record_five_fields)
     = Some [lit "a1b2c3d"; lit "Alice"; lit "1700000000"; lit "feat: add X";
             lit "extra"]
  /\ parseCommits (format_log [record_five_fields])
     = Ok ([(key_type ct_feat, [commit_feat])], [lit "Alice"])
  /\ ~ (forall output curr fields,
          In curr (records output) ->
          record_fields curr = Some fields ->
          List.length fields <> 4 ->
          exists e, parseCommits output = Throw e).
Proof.
  assert (In (format_record record_five_fields)
             (records (format_log [record_five_fields]))) as Hin
    by (vm_compute; left; reflexivity).
  split; [exact Hin|]. split; [reflexivity|]. split; [reflexivity|].
  intros Hclaim.
  destruct (Hclaim (format_log [record_five_fields])
                   (format_record record_five_fields) _ Hin eq_refl) as [e He].
  - discriminate.
  - vm_compute in He. discriminate He.
Qed.

(** A header of four fields or more is read through its first four
    fields; the fields after the fourth are not looked at. *)
Lemma parseRecord_four_fields (curr header f0 f1 f2 f3 : jsstring)
  (more : list jsstring) (body files : option jsstring) :
  match_record curr = Some (header, body, files) ->
  split markers_delim header = f0 :: f1 :: f2 :: f3 :: more ->
  parseRecord curr = commit_of_fields f0 f1 f2 f3 body files.
Proof.
  intros Hm Hs. unfold parseRecord, commit_of_fields. rewrite Hm, Hs.
  cbn [nth_error]. destruct files; reflexivity.
Qed.

Lemma split_from_nonempty (sep s : jsstring) (skip : nat) :
  split_from sep skip s <> [].
Proof.
  revert skip. induction s as [|c s IH]; intros skip; [discriminate|].
  cbn [split_from]. destruct skip as [|k]; [|apply IH].
  destruct (startsWith sep (c :: s)); [discriminate|].
  destruct (split_from sep 0 s); discriminate.
Qed.

Lemma split_nonempty (sep s : jsstring) : sep <> [] -> split sep s <> [].
Proof.
  intros Hsep. unfold split. destruct sep as [|c0 sep']; [congruence|].
  apply split_from_nonempty.
Qed.

(** The pattern finds the longer header of a record with further
    fields, and the split gives the four fields followed by the further
    ones. *)
Lemma match_record_with (r : LogRecord) (extra : jsstring) :
  well_formed_layout r = true ->
  forallb (fun c => negb (is_line_terminator c)) extra = true ->
  match_record (format_record_with r extra)
  = Some (format_header r ++ markers_delim ++ extra,
          rest_group (log_body r), rest_group (log_files r)).
Proof.
  intros Hwf Hextra. unfold well_formed_layout in Hwf. conjuncts Hwf.
  apply match_record_of_at. unfold format_record_with.
  apply match_record_at_format;
    [ | now apply negb_true_iff | now apply negb_true_iff].
  rewrite !forallb_app, Hwf, Hextra. reflexivity.
Qed.

Lemma split_header_with (r : LogRecord) (extra : jsstring) :
  well_formed_layout r = true ->
  free_before markers_delim (log_subject r) = true ->
  split markers_delim (format_header r ++ markers_delim ++ extra)
  = log_hash r :: log_author r :: log_date r :: log_subject r
    :: split markers_delim extra.
Proof.
  intros Hwf Hs. unfold well_formed_layout in Hwf. conjuncts Hwf.
  unfold format_header. cbn [join]. rewrite <- !app_assoc.
  assert (markers_delim <> []) as Hne by discriminate.
  now rewrite !split_piece by assumption.
Qed.

Lemma parseRecords_all (segments : list jsstring) :
  (forall curr, In curr segments -> exists commit, parseRecord curr = Ok commit) ->
  exists commits, parseRecords segments = Ok commits.
Proof.
  induction segments as [|curr rest IH]; intros Hall.
  - now exists [].
  - destruct (Hall curr (or_introl eq_refl)) as [commit Hc].
    destruct IH as [commits Hcs]; [intros c Hin; apply Hall; now right|].
    exists (commit :: commits). cbn [parseRecords]. now rewrite Hc, Hcs.
Qed.

(** C3, amended.  A record whose header splits into fewer than four
    fields does not parse, and no log that has such a record parses.  A
    header of more than four fields is not rejected for that: the record
    is parsed from the first four fields alone, whatever the further
    fields are, so that a well-formed record to whose header further
    fields are appended parses to the same commit as without them; and a
    log parses as soon as each of its records does. *)
Theorem parseCommits_header_arity :
  (forall (output curr : jsstring) (fields : list jsstring),
     In curr (records output) ->
     record_fields curr = Some fields ->
     List.length fields < 4 ->
     parseRecord curr = Throw TypeError
     /\ (exists e, parseCommits output = Throw e))
  /\ (forall (curr header f0 f1 f2 f3 : jsstring) (more : list jsstring)
             (body files : option jsstring),
        match_record curr = Some (header, body, files) ->
        split markers_delim header = f0 :: f1 :: f2 :: f3 :: more ->
        parseRecord curr = commit_of_fields f0 f1 f2 f3 body files)
  /\ (forall (r : LogRecord) (extra : jsstring),
        well_formed_record r = true ->
        free_before markers_delim (log_subject r) = true ->
        on_one_line extra = true ->
        exists commit fields,
          record_fields (format_record_with r extra) = Some fields
          /\ 4 < List.length fields
          /\ parseRecord (format_record_with r extra) = Ok commit
          /\ parseRecord (format_record r) = Ok commit
          /\ describes r commit)
  /\ (forall output : jsstring,
        (forall curr, In curr (records output) ->
                      exists commit, parseRecord curr = Ok commit) ->
        exists commitGroups contributors,
          parseCommits output = Ok (commitGroups, contributors)).
Proof.
  split; [|split; [|split]].
  - intros output curr fields Hin Hfields Hlen.
    assert (parseRecord curr = Throw TypeError) as He.
    { apply parseRecord_few_fields. now rewrite Hfields. }
    split; [exact He|]. exact (parseCommits_Throw _ _ _ Hin He).
  - intros curr header f0 f1 f2 f3 more body files.
    apply parseRecord_four_fields.
  - intros r extra Hwf Hsubject Hextra.
    destruct (parseRecord_format r Hwf) as (commit & Hp & Hdesc).
    pose proof Hwf as Hlayout. unfold well_formed_record in Hlayout.
    apply andb_true_iff in Hlayout as [Hlayout _].
    pose proof (match_record_with r extra Hlayout Hextra) as Hm.
    pose proof (split_header_with r extra Hlayout Hsubject) as Hs.
    exists commit, (log_hash r :: log_author r :: log_date r :: log_subject r
                    :: split markers_delim extra).
    split; [unfold record_fields; now rewrite Hm, Hs|].
    split.
    { destruct (split markers_delim extra) as [|x xs] eqn:Ex.
      - exfalso. revert Ex. apply split_nonempty. discriminate.
      - cbn [List.length]. lia. }
    split; [|split; assumption].
    rewrite (parseRecord_four_fields _ _ _ _ _ _ _ _ _ Hm Hs).
    rewrite <- Hp. symmetry.
    apply (parseRecord_four_fields _ (format_header r) _ _ _ _ []).
    + now apply match_record_format.
    + unfold well_formed_layout in Hlayout. conjuncts Hlayout.
      apply split_header; try assumption. now apply negb_true_iff.
  - intros output Hall.
    destruct (parseRecords_all _ Hall) as [commits Hcommits].
    destruct (parseCommits_groups _ _ Hcommits) as (g & cs & Hg & _).
    now exists g, cs.
Qed.

Lemma parseCommits_header_arity_witness :
  In segment_three_fields (records (markers_begin ++ segment_three_fields))
  /\ record_fields segment_three_fields
     = Some [lit "a1b2c3d"; lit "Alice"; lit "1700000000"]
  /\ 3 < 4
  /\ parseRecord segment_three_fields = Throw TypeError
  /\ (exists e, parseCommits (markers_begin ++ segment_three_fields) = Throw e)
  /\ well_formed_record record_feat = true
  /\ free_before markers_delim (log_subject record_feat) = true
  /\ on_one_line (lit "extra" ++ markers_delim ++ lit "more") = true
  /\ (exists commit fields,
        record_fields (format_record_with record_feat
                         (lit "extra" ++ markers_delim ++ lit "more"))
        = Some fields
        /\ 4 < List.length fields
        /\ parseRecord (format_record_with record_feat
                          (lit "extra" ++ markers_delim ++ lit "more"))
           = Ok commit
        /\ parseRecord (format_record record_feat) = Ok commit
        /\ describes record_feat commit).
Proof.
  assert (In segment_three_fields (records (markers_begin ++ segment_three_fields)))
    as Hin by (vm_compute; left; reflexivity).
  destruct parseCommits_header_arity as (Hfew & _ & Hmore & _).
  split; [exact Hin|]. split; [reflexivity|]. split; [lia|].
  destruct (Hfew (markers_begin ++ segment_three_fields) segment_three_fields
              [lit "a1b2c3d"; lit "Alice"; lit "1700000000"] Hin eq_refl)
    as [Hrecord Hlog]; [simpl; lia|].
  split; [exact Hrecord|]. split; [exact Hlog|].
  split; [reflexivity|]. split; [reflexivity|]. split; [reflexivity|].
  apply Hmore; reflexivity.
Defined.

(** C4, on the code: a record that is well formed but for its list of
    files, which is empty, does not parse.  The files group of the pattern
    does not take part in the match, [files] is undefined and
    [files.split] throws; the log as a whole fails with that [TypeError],
    whatever well-formed records come before and after. *)
Theorem parseCommits_absent_files (junk : jsstring) (before after : list LogRecord)
  (r : LogRecord) :
  free_before markers_begin junk = true ->
  forallb well_formed_record before = true ->
  well_formed_layout r = true ->
  log_files r = [] ->
  forallb well_formed_layout after = true ->
  parseRecord (format_record r) = Throw TypeError
  /\ parseCommits (junk ++ format_log (before ++ r :: after)) = Throw TypeError.
Proof.
  intros Hjunk Hbefore Hr Hfiles Hafter.
  assert (parseRecord (format_record r) = Throw TypeError) as He.
  { apply parseRecord_without_files
      with (header := format_header r) (body := rest_group (log_body r)).
    rewrite (match_record_format r Hr), Hfiles. reflexivity. }
  split; [exact He|].
  rewrite parseCommits_eq, records_format_log; [|assumption|].
  - rewrite map_app, parseRecords_app.
    destruct (parseRecords_format before Hbefore) as (commits & -> & _).
    cbn [bind map parseRecords]. now rewrite He.
  - rewrite forallb_app. cbn [forallb].
    now rewrite (well_formed_record_layout before Hbefore), Hr, Hafter.
Qed.

Lemma parseCommits_absent_files_witness :
  free_before markers_begin [] = true
  /\ forallb well_formed_record [] = true
  /\ well_formed_layout record_no_files = true
  /\ log_files record_no_files = []
  /\ forallb well_formed_layout [] = true
  /\ format_log [record_no_files]
     = lit "__BEGIN__a1b2c3d__DELIM__Alice__DELIM__1700000000__DELIM__feat: add X__BODY____FILES__"
  /\ parseRecord (format_record record_no_files) = Throw TypeError
  /\ parseCommits ([] ++ format_log ([] ++ record_no_files :: [])) = Throw TypeError.
Proof.
  repeat (split; [reflexivity|]).
  apply (parseCommits_absent_files [] [] [] record_no_files); reflexivity.
Defined.

(** C6.  The breaking flag of the commit of a well-formed record is set
    exactly when the subject begins with a type name, [!] and a colon, or
    the body is not empty and its lower-case form starts with
    [breaking change:].  The same holds, for the subject and the body that
    the patterns capture, of every record that parses.  A commit whose
    subject has the [!] is in the breaking bucket of the log it is in and
    in no type bucket, whatever its body. *)
Theorem breaking_flag_and_bucket :
  (forall r : LogRecord,
     well_formed_record r = true ->
     exists commit,
       parseRecord (format_record r) = Ok commit
       /\ (breaking commit = true
           <-> has_breaking_marker (log_subject r) = true
               \/ body_marks_breaking (rest_group (log_body r)) = true))
  /\ (forall (curr : jsstring) (commit : Commit),
        parseRecord curr = Ok commit ->
        record_subject curr = Some (subject commit)
        /\ (breaking commit = true
            <-> has_breaking_marker (subject commit) = true
                \/ body_marks_breaking (record_body curr) = true))
  /\ (forall (output curr : jsstring) (commit : Commit)
             (commitGroups : CommitGroup) (contributors : list jsstring),
        parseCommits output = Ok (commitGroups, contributors) ->
        In curr (records output) ->
        parseRecord curr = Ok commit ->
        has_breaking_marker (subject commit) = true ->
        In commit (bucket key_breaking commitGroups)
        /\ forall t, ~ In commit (bucket (key_type t) commitGroups)).
Proof.
  split; [|split].
  - intros r Hwf. destruct (parseRecord_format r Hwf) as (commit & Hp & Hdesc).
    exists commit. split; [assumption|].
    destruct Hdesc as (_ & _ & _ & _ & _ & _ & ->). apply orb_true_iff.
  - intros curr commit Hp. split; [now apply record_subject_Ok|].
    apply parseRecord_Ok in Hp as (header & body & files_text & Hm & _ & Hd & _).
    apply getCommitDetail_Ok in Hd as (_ & _ & Hb). cbn [detail_breaking] in Hb.
    unfold record_body. rewrite Hm, Hb. apply orb_true_iff.
  - intros output curr commit g cs Hparse Hin Hp Hbang.
    destruct (parseCommits_Ok _ _ Hparse) as [commits Hcommits].
    destruct (parseCommits_groups _ _ Hcommits) as (g' & cs' & Hg & Hbucket & _).
    assert (g' = g) by congruence. subst g'.
    destruct (parseRecords_In _ _ _ Hcommits Hin) as (commit' & Hp' & Hc).
    assert (commit' = commit) by congruence. subst commit'.
    assert (breaking commit = true) as Hbreaking.
    { apply parseRecord_Ok in Hp as (header & body & files_text & _ & _ & Hd & _).
      apply getCommitDetail_Ok in Hd as (_ & _ & Hb). cbn [detail_breaking] in Hb.
      now rewrite Hb, Hbang. }
    split.
    + rewrite Hbucket. apply In_bucket. now rewrite Hbreaking.
    + intros t H. rewrite Hbucket in H. apply In_bucket in H as [_ H].
      rewrite Hbreaking in H. discriminate.
Qed.

Lemma breaking_flag_and_bucket_witness :
  well_formed_record record_fix_bang = true
  /\ body_marks_breaking (rest_group (log_body record_fix_bang)) = false
  /\ parseRecord (format_record record_fix_bang) = Ok commit_fix_bang
  /\ parseCommits (format_log [record_feat; record_fix_bang])
     = Ok ([(key_type ct_feat, [commit_feat]); (key_breaking, [commit_fix_bang])],
           [lit "Alice"; lit "Bob"])
  /\ In (format_record record_fix_bang)
        (records (format_log [record_feat; record_fix_bang]))
  /\ has_breaking_marker (subject commit_fix_bang) = true
  /\ (exists commit,
        parseRecord (format_record record_fix_bang) = Ok commit
        /\ (breaking commit = true
            <-> has_breaking_marker (log_subject record_fix_bang) = true
                \/ body_marks_breaking (rest_group (log_body record_fix_bang)) = true))
  /\ (record_subject (format_record record_fix_bang) = Some (subject commit_fix_bang)
      /\ (breaking commit_fix_bang = true
          <-> has_breaking_marker (subject commit_fix_bang) = true
              \/ body_marks_breaking (record_body (format_record record_fix_bang))
                 = true))
  /\ (In commit_fix_bang
         (bucket key_breaking
            [(key_type ct_feat, [commit_feat]); (key_breaking, [commit_fix_bang])])
      /\ forall t,
           ~ In commit_fix_bang
               (bucket (key_type t)
                  [(key_type ct_feat, [commit_feat]);
                   (key_breaking, [commit_fix_bang])])).
Proof.
  assert (In (format_record record_fix_bang)
             (records (format_log [record_feat; record_fix_bang]))) as Hin
    by (vm_compute; right; left; reflexivity).
  split; [reflexivity|]. split; [reflexivity|]. split; [reflexivity|].
  split; [reflexivity|]. split; [exact Hin|]. split; [reflexivity|].
  destruct breaking_flag_and_bucket as (Hformat & Hrecord & Hbucket).
  split; [apply Hformat; reflexivity|].
  split; [apply Hrecord; reflexivity|].
  apply (Hbucket (format_log [record_feat; record_fix_bang])
                 (format_record record_fix_bang) commit_fix_bang _
                 [lit "Alice"; lit "Bob"]);
    [reflexivity | exact Hin | reflexivity | reflexivity].
Defined.

(* ===================================================================== *)
(** * The order of the sections *)
(* ===================================================================== *)

(** C5, as stated, fails: for the log of [fix: mend Y] followed by
    [feat: add X] the renderer puts the section of the fixes before the
    section of the features, although [feat] comes before [fix] in the
    table of commit types. *)
Lemma sections_not_in_table_order :
  parseCommits (format_log [record_fix; record_feat])
  = Ok ([(key_type ct_fix, [commit_fix]); (key_type ct_feat, [commit_feat])],
        [lit "Bob"; lit "Alice"])
  /\ renderChangeLogMarkdown_body
       ([(key_type ct_fix, [commit_fix]); (key_type ct_feat, [commit_feat])],
        [lit "Bob"; lit "Alice"])
     = lit "## Fixes:
- (0c9d8e7) fix: mend Y
## Features:
- (a1b2c3d) feat: add X
## Thanks:
@Bob, @Alice"
  /\ render_in_table_order
       ([(key_type ct_fix, [commit_fix]); (key_type ct_feat, [commit_feat])],
        [lit "Bob"; lit "Alice"])
     = lit "## Features:
- (a1b2c3d) feat: add X
## Fixes:
- (0c9d8e7) fix: mend Y
## Thanks:
@Bob, @Alice"
  /\ ~ (forall commits : CommitGroup * list jsstring,
          renderChangeLogMarkdown_body commits = render_in_table_order commits).
Proof.
  split; [reflexivity|]. split; [reflexivity|]. split; [reflexivity|].
  intros Hclaim.
  specialize (Hclaim ([(key_type ct_fix, [commit_fix]); (key_type ct_feat, [commit_feat])],
                      [lit "Bob"; lit "Alice"])).
  vm_compute in Hclaim. discriminate Hclaim.
Qed.

(** C5, amended.  The renderer emits the category sections in the order
    of the entries of [commitGroups], which for the groups of a log is the
    order in which the buckets got their first commit.  An entry gives no
    section when its key is the breaking key or its bucket is empty, and
    otherwise the section titled with the display title of its type,
    followed by the bullets of its commits. *)
Theorem sections_in_order_of_insertion :
  (forall (commitGroups : CommitGroup) (contributors : list jsstring),
     renderChangeLogMarkdown_body (commitGroups, contributors)
     = trim (render_breaking commitGroups
             ++ flat_map entry_section commitGroups
             ++ thanks contributors))
  /\ (forall (t : CommitType) (c : Commit) (l : list Commit),
        entry_section (key_type t, c :: l)
        = LF ++ lit "## " ++ commitType_title t ++ lit ":" ++ LF
             ++ join LF (map bullet (c :: l)))
  /\ (forall (t : CommitType) (l : list Commit),
        entry_section (key_type t, []) = [] /\ entry_section (key_breaking, l) = [])
  /\ (forall (output : jsstring) (commits : list Commit)
             (commitGroups : CommitGroup) (contributors : list jsstring),
        parseRecords (records output) = Ok commits ->
        parseCommits output = Ok (commitGroups, contributors) ->
        map fst commitGroups = first_occurrences [] (map bucket_key commits)).
Proof.
  split; [|split; [|split]].
  - intros g cs. apply renderChangeLogMarkdown_body_eq.
  - reflexivity.
  - intros t l. split; reflexivity.
  - intros output commits g cs Hcommits Hparse.
    destruct (parseCommits_groups _ _ Hcommits) as (g' & cs' & Hg & _ & _ & _ & Hkeys).
    congruence.
Qed.

Lemma sections_in_order_of_insertion_witness :
  parseRecords (records (format_log [record_fix; record_feat; record_fix]))
  = Ok [commit_fix; commit_feat; commit_fix]
  /\ parseCommits (format_log [record_fix; record_feat; record_fix])
     = Ok ([(key_type ct_fix, [commit_fix; commit_fix]); (key_type ct_feat, [commit_feat])],
           [lit "Bob"; lit "Alice"])
  /\ map fst [(key_type ct_fix, [commit_fix; commit_fix]); (key_type ct_feat, [commit_feat])]
     = first_occurrences [] (map bucket_key [commit_fix; commit_feat; commit_fix]).
Proof.
  split; [reflexivity|]. split; [reflexivity|].
  apply (proj2 (proj2 (proj2 sections_in_order_of_insertion))
           (format_log [record_fix; record_feat; record_fix])
           [commit_fix; commit_feat; commit_fix] _ [lit "Bob"; lit "Alice"]);
    reflexivity.
Defined.

(* ===================================================================== *)
(** * The breaking section *)
(* ===================================================================== *)

Lemma render_breaking_nonempty (commitGroups : CommitGroup) (commits : list Commit) :
  group_get key_breaking commitGroups = Some commits ->
  commits <> [] ->
  render_breaking commitGroups
  = lit "## Breaking Changes:" ++ LF ++ join LF (map bullet commits).
Proof.
  intros Hget Hne. unfold render_breaking. rewrite Hget.
  destruct commits as [|c commits]; [congruence|]. reflexivity.
Qed.

(** C7.  When the breaking bucket is not empty the document is the heading
    [## Breaking Changes:], a line break, the bullets [- (hashAbbr) subject]
    of the breaking commits in the order of the bucket, one per line, and
    after them the category sections and the thanks, with the white space
    at the very end removed.  The breaking bucket of a log holds its
    breaking commits in log order.  For the log of [feat: add X] followed
    by [fix!: patch Y] the breaking section precedes the section of the
    features. *)
Theorem breaking_section_first :
  (forall (commitGroups : CommitGroup) (contributors : list jsstring)
          (commits : list Commit),
     group_get key_breaking commitGroups = Some commits ->
     commits <> [] ->
     renderChangeLogMarkdown_body (commitGroups, contributors)
     = lit "## Breaking Changes:" ++ LF ++ join LF (map bullet commits)
       ++ trimEnd (sections_in_insertion_order commitGroups ++ thanks contributors))
  /\ (forall commit : Commit,
        bullet commit = lit "- (" ++ commitHashAbbr commit ++ lit ") " ++ subject commit)
  /\ (forall (output : jsstring) (commits : list Commit)
             (commitGroups : CommitGroup) (contributors : list jsstring),
        parseRecords (records output) = Ok commits ->
        parseCommits output = Ok (commitGroups, contributors) ->
        bucket key_breaking commitGroups = filter breaking commits)
  /\ parseCommits (format_log [record_feat; record_fix_bang])
     = Ok ([(key_type ct_feat, [commit_feat]); (key_breaking, [commit_fix_bang])],
           [lit "Alice"; lit "Bob"])
  /\ renderChangeLogMarkdown_body
       ([(key_type ct_feat, [commit_feat]); (key_breaking, [commit_fix_bang])],
        [lit "Alice"; lit "Bob"])
     = lit "## Breaking Changes:
- (e4f5a6b) fix!: patch Y
## Features:
- (a1b2c3d) feat: add X
## Thanks:
@Alice, @Bob".
Proof.
  split; [|split; [|split; [|split]]]; try reflexivity.
  2:{ intros output commits g cs Hcommits Hparse.
      destruct (parseCommits_groups _ _ Hcommits) as (g' & cs' & Hg & Hbucket & _).
      assert (g' = g) by congruence. subst g'. rewrite Hbucket.
      apply filter_ext. intros c. unfold bucket_key. now destruct (breaking c). }
  intros g cs commits Hget Hne.
  rewrite renderChangeLogMarkdown_body_eq.
  rewrite (render_breaking_nonempty g commits Hget Hne).
  set (heading := lit "## Breaking Changes:" ++ LF ++ join LF (map bullet commits)).
  transitivity (heading ++ trimEnd (sections_in_insertion_order g ++ thanks cs));
    [|unfold heading; now rewrite <- !app_assoc].
  unfold trim.
  assert (trimStart (heading ++ sections_in_insertion_order g ++ thanks cs)
          = heading ++ sections_in_insertion_order g ++ thanks cs) as -> by reflexivity.
  apply trimEnd_app, thanks_visible.
Qed.

Lemma breaking_section_first_witness :
  group_get key_breaking
    [(key_type ct_feat, [commit_feat]); (key_breaking, [commit_fix_bang])]
  = Some [commit_fix_bang]
  /\ [commit_fix_bang] <> []
  /\ renderChangeLogMarkdown_body
       ([(key_type ct_feat, [commit_feat]); (key_breaking, [commit_fix_bang])],
        [lit "Alice"; lit "Bob"])
     = lit "## Breaking Changes:" ++ LF ++ join LF (map bullet [commit_fix_bang])
       ++ trimEnd (sections_in_insertion_order
                     [(key_type ct_feat, [commit_feat]); (key_breaking, [commit_fix_bang])]
                   ++ thanks [lit "Alice"; lit "Bob"])
  /\ parseRecords (records (format_log [record_feat; record_fix_bang]))
     = Ok [commit_feat; commit_fix_bang]
  /\ bucket key_breaking
       [(key_type ct_feat, [commit_feat]); (key_breaking, [commit_fix_bang])]
     = filter breaking [commit_feat; commit_fix_bang].
Proof.
  split; [reflexivity|]. split; [discriminate|].
  split; [apply (proj1 breaking_section_first); [reflexivity | discriminate]|].
  split; [reflexivity|].
  apply (proj1 (proj2 (proj2 breaking_section_first))
           (format_log [record_feat; record_fix_bang])
           [commit_feat; commit_fix_bang] _ [lit "Alice"; lit "Bob"]);
    reflexivity.
Defined.

(* ===================================================================== *)
(** * The release flow *)
(* ===================================================================== *)

Section Flow.

Variable env_GITHUB_TOKEN : option jsstring.
Variable execa : list event -> jsstring -> list jsstring -> result jsstring.
Variable axios : list event -> jsstring -> jsstring -> GitHubReleaseRequest
                 -> result GitHubReleaseResponse.

(** The log reader is the first thing [renderChangeLogMarkdown] does, and
    the only thing it does to the world. *)
Lemma renderChangeLogMarkdown_trace (from to : jsstring) (trace : list event) :
  fst (renderChangeLogMarkdown execa from to trace)
  = trace ++ [RunCommand (lit "git") (getCommits_args from to)].
Proof.
  unfold renderChangeLogMarkdown, getCommits, IO_bind, runCommand.
  destruct (execa trace _ _) as [output|e]; [|reflexivity].
  destruct (parseCommits output) as [commits|e]; reflexivity.
Qed.

(** C9.  When [GITHUB_TOKEN] is not in the environment (or is the empty
    string, which the test [!process.env.GITHUB_TOKEN] does not tell from an
    unset variable), [createGitHubRelease] is rejected with an [Error] and
    leaves the trace of events as it found it: no request was sent. *)
Theorem createGitHubRelease_without_token
  (tag body commitHash repo owner : jsstring) (trace : list event) :
  token_missing env_GITHUB_TOKEN = true ->
  createGitHubRelease env_GITHUB_TOKEN axios tag body commitHash repo owner trace
  = (trace,
     Throw (Error (lit "No " ++ [34%N] ++ lit "GH_TOKEN" ++ [34%N]
                   ++ lit " found in environment variables."))).
Proof.
  intros Hmissing. unfold createGitHubRelease. now rewrite Hmissing.
Qed.

(** C8.  With [dryRun] the events of [generateChangelog] are the log reader,
    called with the range [from...HEAD], and after it console output only:
    no push, no request to the release API.  Without [dryRun] the log
    reader is called first, with the range [from...to^]. *)
Theorem generateChangelog_dryRun (from to owner repo : jsstring) (trace : list event) :
  (exists logs,
     fst (generateChangelog env_GITHUB_TOKEN execa axios from to owner repo true trace)
     = trace ++ RunCommand (lit "git") (getCommits_args from (lit "HEAD")) :: logs
     /\ Forall (fun e => exists message, e = ConsoleLog message) logs
     /\ forallb (fun e => negb (is_remote_write e))
          (RunCommand (lit "git") (getCommits_args from (lit "HEAD")) :: logs) = true)
  /\ (exists rest,
        fst (generateChangelog env_GITHUB_TOKEN execa axios from to owner repo false trace)
        = trace ++ RunCommand (lit "git") (getCommits_args from (to ++ lit "^")) :: rest)
  /\ last (getCommits_args from (lit "HEAD")) [] = from ++ lit "..." ++ lit "HEAD"
  /\ last (getCommits_args from (to ++ lit "^")) [] = from ++ lit "..." ++ to ++ lit "^".
Proof.
  split; [|split; [|split; reflexivity]].
  - unfold generateChangelog.
    unfold IO_bind at 1.
    pose proof (renderChangeLogMarkdown_trace from (lit "HEAD") trace) as Hlog.
    destruct (renderChangeLogMarkdown execa from (lit "HEAD") trace)
      as [trace1 [markdown|e]]; simpl in Hlog; subst trace1.
    + exists [ConsoleLog markdown;
              ConsoleLog (lit "Skipping github push and release because dry run was set...")].
      split; [|split].
      * unfold IO_bind, console_log. simpl.
        rewrite <- !app_assoc. reflexivity.
      * repeat constructor; eexists; reflexivity.
      * reflexivity.
    + exists []. split; [|split].
      * reflexivity.
      * constructor.
      * reflexivity.
  - unfold generateChangelog.
    unfold IO_bind at 1.
    pose proof (renderChangeLogMarkdown_trace from (to ++ lit "^") trace) as Hlog.
    destruct (renderChangeLogMarkdown execa from (to ++ lit "^") trace)
      as [trace1 [markdown|e]]; simpl in Hlog; subst trace1.
    + unfold IO_bind at 1. unfold console_log at 1.
      unfold IO_bind at 1. unfold createGitHubPush, IO_bind at 1, runCommand at 1.
      destruct (execa _ (lit "git") [lit "push"; lit "--follow-tags"]) as [out1|e1].
      * unfold IO_ret at 1. unfold IO_bind at 1.
        unfold getParentHashFromVersionTag, runCommand at 1.
        destruct (execa _ (lit "git") [lit "rev-parse"; to ++ lit "^{}"]) as [hash|e2].
        -- unfold createGitHubRelease.
           destruct (token_missing env_GITHUB_TOKEN).
           ++ eexists. unfold IO_throw. cbn [fst].
              rewrite <- !app_assoc. cbn [app]. reflexivity.
           ++ unfold IO_bind, console_log.
              destruct (axios _ _ _ _) as [res|e3];
                eexists; cbn [fst]; rewrite <- !app_assoc; cbn [app]; reflexivity.
        -- eexists. cbn [fst]. rewrite <- !app_assoc. cbn [app]. reflexivity.
      * eexists. cbn [fst]. rewrite <- !app_assoc. cbn [app]. reflexivity.
    + exists []. reflexivity.
Qed.

End Flow.

Lemma createGitHubRelease_without_token_witness :
  token_missing None = true
  /\ createGitHubRelease None
       (fun _ _ _ _ => Ok (mkGitHubReleaseResponse (lit "https://example.org/r/1")))
       (lit "1.1.0") (lit "notes") (lit "e4f5a6b") (lit "nx-monorepo")
       (lit "virtuallyunknown") []
     = ([],
        Throw (Error (lit "No " ++ [34%N] ++ lit "GH_TOKEN" ++ [34%N]
                      ++ lit " found in environment variables."))).
Proof.
  split; [reflexivity|].
  apply (createGitHubRelease_without_token None). reflexivity.
Defined.

(* ===================================================================== *)
(** * Contributors and buckets *)
(* ===================================================================== *)

Lemma existsb_eqb_In (x : jsstring) (l : list jsstring) :
  existsb (eqb x) l = true <-> In x l.
Proof.
  rewrite existsb_exists. split.
  - intros (y & Hin & E). apply eqb_eq in E. now subst.
  - intros Hin. exists x. split; [assumption | apply eqb_refl].
Qed.

Lemma fold_add_commit_contributors (commits : list Commit)
  (state : CommitGroup * list jsstring) :
  snd (fold_left add_commit commits state)
  = snd state ++ first_strings (snd state) (map authorName commits).
Proof.
  revert state. induction commits as [|c commits IH]; intros [acc cs]; simpl.
  - now rewrite app_nil_r.
  - rewrite IH. cbn [snd]. unfold Set_add.
    destruct (existsb (eqb (authorName c)) cs); [reflexivity|].
    now rewrite <- app_assoc.
Qed.

Lemma first_strings_In (names seen : list jsstring) (x : jsstring) :
  In x (seen ++ first_strings seen names) <-> In x seen \/ In x names.
Proof.
  revert seen. induction names as [|y names IH]; intros seen; simpl.
  - rewrite app_nil_r. tauto.
  - destruct (existsb (eqb y) seen) eqn:E.
    + rewrite IH. apply existsb_eqb_In in E.
      split; [tauto|]. intros [H|[<-|H]]; tauto.
    + change (y :: first_strings (seen ++ [y]) names)
        with ([y] ++ first_strings (seen ++ [y]) names).
      rewrite app_assoc, IH, in_app_iff. simpl. tauto.
Qed.

Lemma first_strings_NoDup (names seen : list jsstring) :
  NoDup seen -> NoDup (seen ++ first_strings seen names).
Proof.
  revert seen. induction names as [|y names IH]; intros seen Hnd; simpl.
  - now rewrite app_nil_r.
  - destruct (existsb (eqb y) seen) eqn:E; [now apply IH|].
    change (y :: first_strings (seen ++ [y]) names)
      with ([y] ++ first_strings (seen ++ [y]) names).
    rewrite app_assoc. apply IH.
    apply NoDup_app; [assumption | repeat constructor; intros [] |].
    intros x Hin [<-|[]]. apply existsb_eqb_In in Hin. congruence.
Qed.

(** X1.  The contributors of a log that parses are the author names of its
    commits, each once, in the order in which they first occur in the
    log. *)
Theorem parseCommits_contributors (output : jsstring) (commits : list Commit)
  (commitGroups : CommitGroup) (contributors : list jsstring) :
  parseRecords (records output) = Ok commits ->
  parseCommits output = Ok (commitGroups, contributors) ->
  contributors = first_strings [] (map authorName commits)
  /\ NoDup contributors
  /\ (forall name, In name contributors <-> exists c, In c commits /\ authorName c = name).
Proof.
  intros Hcommits Hparse. rewrite parseCommits_eq, Hcommits in Hparse.
  cbn [bind] in Hparse. injection Hparse as Hfold.
  assert (contributors = first_strings [] (map authorName commits)) as ->.
  { replace contributors with (snd (fold_left add_commit commits ([], [])))
      by now rewrite Hfold.
    now rewrite fold_add_commit_contributors. }
  split; [reflexivity|]. split.
  - apply (first_strings_NoDup (map authorName commits) []). constructor.
  - intros name.
    rewrite (first_strings_In (map authorName commits) [] name : _ <-> _).
    rewrite in_map_iff. simpl. split.
    + intros [[]|(c & Hc & Hin)]. now exists c.
    + intros (c & Hin & Hc). right. now exists c.
Qed.

Lemma parseCommits_contributors_witness :
  parseRecords (records (format_log [record_fix; record_feat; record_fix_bang]))
  = Ok [commit_fix; commit_feat; commit_fix_bang]
  /\ parseCommits (format_log [record_fix; record_feat; record_fix_bang])
     = Ok ([(key_type ct_fix, [commit_fix]); (key_type ct_feat, [commit_feat]);
            (key_breaking, [commit_fix_bang])],
           [lit "Bob"; lit "Alice"])
  /\ [lit "Bob"; lit "Alice"]
     = first_strings [] (map authorName [commit_fix; commit_feat; commit_fix_bang])
  /\ NoDup [lit "Bob"; lit "Alice"]
  /\ (forall name,
        In name [lit "Bob"; lit "Alice"]
        <-> exists c, In c [commit_fix; commit_feat; commit_fix_bang]
                      /\ authorName c = name).
Proof.
  split; [reflexivity|]. split; [reflexivity|].
  apply (parseCommits_contributors
           (format_log [record_fix; record_feat; record_fix_bang])
           [commit_fix; commit_feat; commit_fix_bang]
           [(key_type ct_fix, [commit_fix]); (key_type ct_feat, [commit_feat]);
            (key_breaking, [commit_fix_bang])]);
    reflexivity.
Defined.

(** X2.  [parseCommits] stops at the first record that does not parse and
    throws the exception of that record, whatever the records after it
    are. *)
Theorem parseCommits_first_failure (output curr : jsstring)
  (before after : list jsstring) (commits : list Commit) (e : exn) :
  records output = before ++ curr :: after ->
  parseRecords before = Ok commits ->
  parseRecord curr = Throw e ->
  parseCommits output = Throw e.
Proof.
  intros Hrecords Hbefore Hcurr.
  rewrite parseCommits_eq, Hrecords, parseRecords_app, Hbefore.
  cbn [bind parseRecords]. now rewrite Hcurr.
Qed.

Lemma parseCommits_first_failure_witness :
  records (format_log [record_feat; record_oops; record_no_files])
  = [format_record record_feat] ++ format_record record_oops
    :: [format_record record_no_files]
  /\ parseRecords [format_record record_feat] = Ok [commit_feat]
  /\ parseRecord (format_record record_oops)
     = Throw (commitType_error (lit "undefined"))
  /\ parseCommits (format_log [record_feat; record_oops; record_no_files])
     = Throw (commitType_error (lit "undefined")).
Proof.
  split; [reflexivity|]. split; [reflexivity|]. split; [reflexivity|].
  apply (parseCommits_first_failure
           (format_log [record_feat; record_oops; record_no_files])
           (format_record record_oops)
           [format_record record_feat] [format_record record_no_files]
           [commit_feat]);
    reflexivity.
Defined.

Lemma group_set_nonempty (key : GroupKey) (value : list Commit) (acc : CommitGroup) :
  value <> [] ->
  Forall (fun entry => snd entry <> []) acc ->
  Forall (fun entry => snd entry <> []) (group_set key value acc).
Proof.
  intros Hvalue. induction acc as [|[k v] acc IH]; intros Hacc; simpl.
  - now repeat constructor.
  - inversion Hacc as [|? ? Hv Hrest]; subst.
    destruct (GroupKey_eqb key k); constructor; auto.
Qed.

Lemma fold_add_commit_nonempty (commits : list Commit)
  (state : CommitGroup * list jsstring) :
  Forall (fun entry => snd entry <> []) (fst state) ->
  Forall (fun entry => snd entry <> []) (fst (fold_left add_commit commits state)).
Proof.
  revert state. induction commits as [|c commits IH]; intros [acc cs]; simpl.
  - trivial.
  - intros Hacc. apply IH. cbn [fst]. apply group_set_nonempty; [|assumption].
    intros H. now apply app_eq_nil in H as [_ H].
Qed.

(** X3.  The groups of a log that parses have no empty bucket: a key is
    there only with at least one commit, so the test for an empty bucket
    in the loop of the renderer never holds for them. *)
Theorem parseCommits_no_empty_bucket (output : jsstring)
  (commitGroups : CommitGroup) (contributors : list jsstring) :
  parseCommits output = Ok (commitGroups, contributors) ->
  (forall key bucket_commits,
     In (key, bucket_commits) commitGroups -> bucket_commits <> [])
  /\ (forall key, group_get key commitGroups <> Some []).
Proof.
  intros Hparse. rewrite parseCommits_eq in Hparse.
  destruct (parseRecords (records output)) as [commits|e]; [|discriminate].
  cbn [bind] in Hparse. injection Hparse as Hfold.
  assert (Forall (fun entry => snd entry <> []) commitGroups) as Hall.
  { replace commitGroups with (fst (fold_left add_commit commits ([], [])))
      by now rewrite Hfold.
    apply fold_add_commit_nonempty. constructor. }
  rewrite Forall_forall in Hall. split.
  - intros key l Hin. exact (Hall (key, l) Hin).
  - intros key Hget.
    assert (In (key, []) commitGroups) as Hin; [|exact (Hall _ Hin eq_refl)].
    clear Hall Hfold. induction commitGroups as [|[k v] g IH]; [discriminate|].
    simpl in Hget. destruct (GroupKey_eqb key k) eqn:E.
    + apply GroupKey_eqb_eq in E. injection Hget as ->. subst. now left.
    + right. now apply IH.
Qed.

Lemma parseCommits_no_empty_bucket_witness :
  parseCommits (format_log [record_feat; record_fix_bang])
  = Ok ([(key_type ct_feat, [commit_feat]); (key_breaking, [commit_fix_bang])],
        [lit "Alice"; lit "Bob"])
  /\ (forall key bucket_commits,
        In (key, bucket_commits)
           [(key_type ct_feat, [commit_feat]); (key_breaking, [commit_fix_bang])] ->
        bucket_commits <> [])
  /\ (forall key,
        group_get key
          [(key_type ct_feat, [commit_feat]); (key_breaking, [commit_fix_bang])]
        <> Some []).
Proof.
  split; [reflexivity|].
  apply (parseCommits_no_empty_bucket
           (format_log [record_feat; record_fix_bang]) _ [lit "Alice"; lit "Bob"]).
  reflexivity.
Defined.

(** X4.  What comes before the first begin marker is not read: a prefix in
    which the marker does not begin leaves the result as it is without
    the prefix. *)
Theorem parseCommits_ignores_prefix (junk rest : jsstring) :
  free_before markers_begin junk = true ->
  parseCommits (junk ++ markers_begin ++ rest) = parseCommits (markers_begin ++ rest).
Proof.
  intros Hjunk.
  assert (forall prefix, free_before markers_begin prefix = true ->
            records (prefix ++ markers_begin ++ rest)
            = split_from markers_begin 0 rest) as Hrecords.
  { intros prefix Hprefix. unfold records, split.
    change markers_begin with (95 :: tl markers_begin)%N at 1.
    cbv iota. fold markers_begin.
    rewrite split_from_piece by (assumption || discriminate). reflexivity. }
  rewrite !parseCommits_eq.
  rewrite (Hrecords junk Hjunk).
  change (markers_begin ++ rest) with ([] ++ markers_begin ++ rest).
  now rewrite (Hrecords [] eq_refl).
Qed.

Lemma parseCommits_ignores_prefix_witness :
  free_before markers_begin (lit "warning: refname is ambiguous" ++ LF) = true
  /\ parseCommits ((lit "warning: refname is ambiguous" ++ LF)
                   ++ markers_begin ++ format_record record_feat)
     = parseCommits (markers_begin ++ format_record record_feat).
Proof.
  split; [reflexivity|].
  apply (parseCommits_ignores_prefix (lit "warning: refname is ambiguous" ++ LF)
           (format_record record_feat)).
  reflexivity.
Defined.

(* ===================================================================== *)
(** * Records without a marker *)
(* ===================================================================== *)

Lemma includes_skipn (needle s : jsstring) (k : nat) :
  includes needle s = false -> includes needle (skipn k s) = false.
Proof.
  revert s. induction k as [|k IH]; intros s H; [exact H|].
  destruct s as [|c s]; [exact H|].
  apply includes_cons_false in H as [_ H]. now apply IH.
Qed.

Lemma match_body_files_None (r : jsstring) :
  includes markers_files r = false -> match_body_files r = None.
Proof.
  intros H. unfold match_body_files. rewrite (split_here_None _ _ H).
  destruct r as [|c r']; [reflexivity|].
  apply includes_cons_false in H as [_ H]. now rewrite (split_last_None _ _ H).
Qed.

Lemma match_record_at_without_files (t : jsstring) :
  includes markers_files t = false -> match_record_at t = None.
Proof.
  induction t as [|c t IH]; intros H.
  - reflexivity.
  - assert (match split_here markers_body (c :: t) with
            | Some (_, r) =>
                match match_body_files r with
                | Some (body, files) => Some ([], body, files)
                | None => None
                end
            | None => None
            end = @None (jsstring * option jsstring * option jsstring)) as Hhere.
    { unfold split_here. destruct (startsWith markers_body (c :: t)); [|reflexivity].
      now rewrite (match_body_files_None _ (includes_skipn _ _ _ H)). }
    pose proof H as H'. apply includes_cons_false in H' as [_ Hlater].
    cbn [match_record_at]. rewrite Hhere, (IH Hlater).
    now destruct (is_line_terminator c).
Qed.

Lemma match_record_None (curr : jsstring) :
  includes markers_body curr = false \/ includes markers_files curr = false ->
  match_record curr = None.
Proof.
  induction curr as [|c curr IH]; intros H.
  - reflexivity.
  - cbn [match_record].
    assert (match_record_at (c :: curr) = None) as ->.
    { destruct H as [H|H];
        [now apply match_record_at_None | now apply match_record_at_without_files]. }
    apply IH. destruct H as [H|H]; apply includes_cons_false in H as [_ H]; auto.
Qed.

(** X5.  A record in which the body marker or the files marker does not
    occur is not skipped: its match fails, [header] is undefined and the
    callback throws a [TypeError], which fails the whole log. *)
Theorem parseCommits_record_without_marker (output curr : jsstring) :
  In curr (records output) ->
  includes markers_body curr = false \/ includes markers_files curr = false ->
  parseRecord curr = Throw TypeError
  /\ (exists e, parseCommits output = Throw e).
Proof.
  intros Hin Hmarker.
  assert (parseRecord curr = Throw TypeError) as He.
  { unfold parseRecord. now rewrite (match_record_None curr Hmarker). }
  split; [exact He|]. exact (parseCommits_Throw _ _ _ Hin He).
Qed.

Lemma parseCommits_record_without_marker_witness :
  In (lit "a1b2c3d__DELIM__Alice__DELIM__1700000000__DELIM__feat: add X__BODY__")
     (records (lit "__BEGIN__a1b2c3d__DELIM__Alice__DELIM__1700000000__DELIM__feat: add X__BODY__"))
  /\ (includes markers_body
        (lit "a1b2c3d__DELIM__Alice__DELIM__1700000000__DELIM__feat: add X__BODY__")
      = false
      \/ includes markers_files
           (lit "a1b2c3d__DELIM__Alice__DELIM__1700000000__DELIM__feat: add X__BODY__")
         = false)
  /\ parseRecord
       (lit "a1b2c3d__DELIM__Alice__DELIM__1700000000__DELIM__feat: add X__BODY__")
     = Throw TypeError
  /\ (exists e,
        parseCommits
          (lit "__BEGIN__a1b2c3d__DELIM__Alice__DELIM__1700000000__DELIM__feat: add X__BODY__")
        = Throw e).
Proof.
  assert (In (lit "a1b2c3d__DELIM__Alice__DELIM__1700000000__DELIM__feat: add X__BODY__")
             (records (lit "__BEGIN__a1b2c3d__DELIM__Alice__DELIM__1700000000__DELIM__feat: add X__BODY__")))
    as Hin by (vm_compute; left; reflexivity).
  split; [exact Hin|]. split; [right; reflexivity|].
  apply (parseCommits_record_without_marker
           (lit "__BEGIN__a1b2c3d__DELIM__Alice__DELIM__1700000000__DELIM__feat: add X__BODY__")
           (lit "a1b2c3d__DELIM__Alice__DELIM__1700000000__DELIM__feat: add X__BODY__"));
    [exact Hin | right; reflexivity].
Defined.

(* ===================================================================== *)
(** * The fields of a commit *)
(* ===================================================================== *)

Lemma match_record_at_one_line (t header : jsstring) (body files : option jsstring) :
  match_record_at t = Some (header, body, files) -> on_one_line header = true.
Proof.
  revert header. induction t as [|c t IH]; intros header.
  - cbn [match_record_at].
    destruct (split_here markers_body []) as [[? r]|]; [|discriminate].
    destruct (match_body_files r) as [[b f]|]; [|discriminate].
    now intros [= <- _ _].
  - cbn [match_record_at].
    assert (forall h,
              match split_here markers_body (c :: t) with
              | Some (_, r) =>
                  match match_body_files r with
                  | Some (body, files) => Some ([], body, files)
                  | None => None
                  end
              | None => None
              end = Some (h, body, files) -> on_one_line h = true) as Hhere.
    { intros h. destruct (split_here markers_body (c :: t)) as [[? r]|]; [|discriminate].
      destruct (match_body_files r) as [[b f]|]; [|discriminate].
      now intros [= <- _ _]. }
    destruct (is_line_terminator c) eqn:Ec; [apply Hhere|].
    destruct (match_record_at t) as [[[h b] f]|] eqn:Et; [|apply Hhere].
    intros [= <- <- <-]. unfold on_one_line. cbn [forallb]. rewrite Ec.
    exact (IH h eq_refl).
Qed.

Lemma match_record_one_line (curr header : jsstring) (body files : option jsstring) :
  match_record curr = Some (header, body, files) -> on_one_line header = true.
Proof.
  induction curr as [|c curr IH]; cbn [match_record].
  - destruct (match_record_at []) as [[[h b] f]|] eqn:E; [|discriminate].
    intros [= <- <- <-]. exact (match_record_at_one_line _ _ _ _ E).
  - destruct (match_record_at (c :: curr)) as [[[h b] f]|] eqn:E; [|exact IH].
    intros [= <- <- <-]. exact (match_record_at_one_line _ _ _ _ E).
Qed.

Lemma cons_head_Forall (P : jsstring -> Prop) (c : N) (pieces : list jsstring) :
  (forall p, P p -> P (c :: p)) -> P [c] ->
  Forall P pieces -> Forall P (cons_head c pieces).
Proof.
  intros Hcons Hone Hall. destruct pieces as [|p ps]; simpl.
  - now repeat constructor.
  - inversion Hall; subst. constructor; auto.
Qed.

(** The pieces of a split are made of code units of the string. *)
Lemma split_from_forallb (test : N -> bool) (sep s : jsstring) (skip : nat) :
  forallb test s = true ->
  Forall (fun p => forallb test p = true) (split_from sep skip s).
Proof.
  revert skip. induction s as [|c s IH]; intros skip H.
  - now repeat constructor.
  - cbn [forallb] in H. apply andb_true_iff in H as [Hc Hs].
    cbn [split_from]. destruct skip as [|k]; [|now apply IH].
    destruct (startsWith sep (c :: s)).
    + constructor; [reflexivity | now apply IH].
    + apply cons_head_Forall; [| |now apply IH].
      * intros p Hp. cbn [forallb]. now rewrite Hc, Hp.
      * cbn [forallb]. now rewrite Hc.
Qed.

Lemma split_forallb (test : N -> bool) (sep s : jsstring) :
  forallb test s = true -> Forall (fun p => forallb test p = true) (split sep s).
Proof.
  intros H. unfold split. destruct sep as [|c0 sep'].
  - induction s as [|c s IH]; [constructor|].
    cbn [forallb] in H. apply andb_true_iff in H as [Hc Hs].
    cbn [map]. constructor; [cbn [forallb]; now rewrite Hc | now apply IH].
  - now apply split_from_forallb.
Qed.

(** The first piece of a split is a prefix of the string. *)
Lemma split_from_head (sep s : jsstring) :
  exists p ps rest, split_from sep 0 s = p :: ps /\ s = p ++ rest.
Proof.
  induction s as [|c s IH].
  - now exists [], [], [].
  - cbn [split_from]. destruct (startsWith sep (c :: s)).
    + eexists [], _, (c :: s). split; reflexivity.
    + destruct IH as (p & ps & rest & -> & ->).
      exists (c :: p), ps, rest. split; reflexivity.
Qed.

(** The separator does not occur in a piece of a split. *)
Lemma split_from_excludes (sep s : jsstring) (skip : nat) :
  sep <> [] ->
  Forall (fun p => includes sep p = false) (split_from sep skip s).
Proof.
  intros Hsep.
  assert (includes sep [] = false) as Hnil.
  { destruct sep; [congruence | reflexivity]. }
  revert skip. induction s as [|c s IH]; intros skip.
  - now repeat constructor.
  - cbn [split_from]. destruct skip as [|k]; [|apply IH].
    destruct (startsWith sep (c :: s)) eqn:E.
    + constructor; [exact Hnil | apply IH].
    + destruct (split_from_head sep s) as (p & ps & rest & Hsplit & Hs).
      pose proof (IH 0) as Hall. rewrite Hsplit in Hall |- *.
      inversion Hall as [|? ? Hp Hps]; subst. cbn [cons_head].
      constructor; [|assumption].
      cbn [includes]. rewrite Hp, orb_false_r.
      destruct (startsWith sep (c :: p)) eqn:Ep; [|reflexivity].
      apply startsWith_spec in Ep as [r Hr].
      assert (startsWith sep (c :: p ++ rest) = true) as Habs; [|congruence].
      apply startsWith_spec. exists (r ++ rest).
      change (c :: p ++ rest) with ((c :: p) ++ rest). rewrite Hr.
      now rewrite <- app_assoc.
Qed.

Lemma split_excludes (sep s : jsstring) :
  sep <> [] -> Forall (fun p => includes sep p = false) (split sep s).
Proof.
  intros Hsep. unfold split. destruct sep as [|c0 sep']; [congruence|].
  now apply split_from_excludes.
Qed.

(** All the fields of a commit, as the callback reads them. *)
Lemma parseRecord_fields (curr : jsstring) (commit : Commit) :
  parseRecord curr = Ok commit ->
  exists header body files_text,
    match_record curr = Some (header, body, Some files_text)
    /\ nth_error (split markers_delim header) 0 = Some (commitHashAbbr commit)
    /\ nth_error (split markers_delim header) 1 = Some (authorName commit)
    /\ authorDate commit
       = Date_of_seconds (parseInt (nth_error (split markers_delim header) 2))
    /\ nth_error (split markers_delim header) 3 = Some (subject commit)
    /\ files commit = filter (fun f => negb (eqb f [])) (split LF files_text).
Proof.
  unfold parseRecord.
  destruct (match_record curr) as [[[header body] files_opt]|]; [|discriminate].
  destruct files_opt as [files_text|]; [|discriminate].
  destruct (split markers_delim header) as [|f0 [|f1 [|f2 [|f3 more]]]] eqn:Ef;
    try discriminate.
  cbn [nth_error].
  destruct (getCommitDetail f3 body) as [[t b]|e]; cbn [bind]; [|discriminate].
  intros [= <-]. cbn [commitHashAbbr authorName authorDate subject files].
  exists header, body, files_text. rewrite Ef. repeat split; reflexivity.
Qed.

Lemma parseRecord_one_line (curr : jsstring) (commit : Commit) :
  parseRecord curr = Ok commit ->
  on_one_line (commitHashAbbr commit) = true
  /\ on_one_line (authorName commit) = true
  /\ on_one_line (subject commit) = true.
Proof.
  intros Hp.
  apply parseRecord_fields in Hp
    as (header & body & files_text & Hm & H0 & H1 & _ & H3 & _).
  apply match_record_one_line in Hm.
  pose proof (split_forallb _ markers_delim header Hm) as Hline.
  rewrite Forall_forall in Hline.
  apply nth_error_In in H0, H1, H3.
  repeat split; now apply Hline.
Qed.

(** X6.  The hash, the author name and the subject of a parsed commit are
    on one line and the delimiter does not occur in them: the header is
    matched up to a line terminator only, and split on the delimiter. *)
Theorem parseRecord_header_fields (curr : jsstring) (commit : Commit) :
  parseRecord curr = Ok commit ->
  (on_one_line (commitHashAbbr commit) = true
   /\ on_one_line (authorName commit) = true
   /\ on_one_line (subject commit) = true)
  /\ (includes markers_delim (commitHashAbbr commit) = false
      /\ includes markers_delim (authorName commit) = false
      /\ includes markers_delim (subject commit) = false).
Proof.
  intros Hp. split; [exact (parseRecord_one_line curr commit Hp)|].
  apply parseRecord_fields in Hp
    as (header & body & files_text & Hm & H0 & H1 & _ & H3 & _).
  assert (markers_delim <> []) as Hne by discriminate.
  pose proof (split_excludes markers_delim header Hne) as Hdelim.
  rewrite Forall_forall in Hdelim.
  apply nth_error_In in H0, H1, H3.
  repeat split; auto.
Qed.

Lemma parseRecord_header_fields_witness :
  parseRecord (format_record record_fix_bang) = Ok commit_fix_bang
  /\ (on_one_line (commitHashAbbr commit_fix_bang) = true
      /\ on_one_line (authorName commit_fix_bang) = true
      /\ on_one_line (subject commit_fix_bang) = true)
  /\ (includes markers_delim (commitHashAbbr commit_fix_bang) = false
      /\ includes markers_delim (authorName commit_fix_bang) = false
      /\ includes markers_delim (subject commit_fix_bang) = false).
Proof.
  split; [reflexivity|].
  apply (parseRecord_header_fields (format_record record_fix_bang)). reflexivity.
Defined.

Lemma includes_singleton (x : N) (s : jsstring) :
  includes [x] s = false <-> ~ In x s.
Proof.
  induction s as [|c s IH]; simpl.
  - tauto.
  - rewrite orb_false_iff, andb_true_r, IH, N.eqb_neq. split.
    + intros [Hc Hs] [H|H]; [congruence | tauto].
    + intros H. split; [intros ->; apply H; now left | intros Hin; apply H; now right].
Qed.

(** X7.  The files of a parsed commit are the non-empty lines of the files
    segment, in their order: no file name is empty and none has a line
    feed in it. *)
Theorem parseRecord_files (curr : jsstring) (commit : Commit) :
  parseRecord curr = Ok commit ->
  (exists header body files_text,
     match_record curr = Some (header, body, Some files_text)
     /\ files commit = filter (fun f => negb (eqb f [])) (split LF files_text))
  /\ Forall (fun f => f <> [] /\ ~ In 10%N f) (files commit).
Proof.
  intros Hp.
  apply parseRecord_fields in Hp
    as (header & body & files_text & Hm & _ & _ & _ & _ & Hfiles).
  split.
  - now exists header, body, files_text.
  - rewrite Hfiles. apply Forall_forall. intros f Hin.
    apply filter_In in Hin as [Hin Hne]. split.
    + intros ->. discriminate Hne.
    + assert (LF <> []) as Hsep by discriminate.
      pose proof (split_excludes LF files_text Hsep) as Hall.
      rewrite Forall_forall in Hall. apply includes_singleton. exact (Hall f Hin).
Qed.

Lemma parseRecord_files_witness :
  parseRecord (format_record record_fix_bang) = Ok commit_fix_bang
  /\ files commit_fix_bang = [lit "src/y.ts"; lit "src/z.ts"]
  /\ Forall (fun f => f <> [] /\ ~ In 10%N f) (files commit_fix_bang).
Proof.
  split; [reflexivity|]. split; [reflexivity|].
  apply (parseRecord_files (format_record record_fix_bang)). reflexivity.
Defined.

(* ===================================================================== *)
(** * Bullets, line by line *)
(* ===================================================================== *)

(** Joining pieces in which the separator does not begin, and splitting
    the result, gives the pieces back. *)
Lemma split_join (sep : jsstring) (parts : list jsstring) :
  sep <> [] -> parts <> [] ->
  Forall (fun p => free_before sep p = true) parts ->
  split sep (join sep parts) = parts.
Proof.
  intros Hsep Hparts Hall. induction parts as [|p parts IH]; [congruence|].
  inversion Hall as [|? ? Hp Hrest]; subst.
  destruct parts as [|q parts].
  - cbn [join]. apply split_not_included; [assumption|].
    now apply free_before_includes.
  - change (join sep (p :: q :: parts)) with (p ++ sep ++ join sep (q :: parts)).
    rewrite split_piece by assumption.
    rewrite IH; [reflexivity | discriminate | assumption].
Qed.

Lemma free_before_LF (s : jsstring) : ~ In 10%N s -> free_before LF s = true.
Proof.
  intros H. unfold free_before. cbn [LF removelast]. rewrite app_nil_r.
  apply negb_true_iff. now apply includes_singleton.
Qed.

Lemma on_one_line_LF (s : jsstring) : on_one_line s = true -> ~ In 10%N s.
Proof.
  intros H Hin. unfold on_one_line in H. rewrite forallb_forall in H.
  specialize (H _ Hin). discriminate H.
Qed.

Lemma bullet_on_one_line (commit : Commit) :
  on_one_line (commitHashAbbr commit) = true ->
  on_one_line (subject commit) = true ->
  ~ In 10%N (bullet commit).
Proof.
  intros Hh Hs. apply on_one_line_LF in Hh, Hs. unfold bullet.
  rewrite !in_app_iff. intros [H|[H|[H|H]]]; try tauto;
    simpl in H; repeat destruct H as [H|H]; try discriminate H; assumption.
Qed.

Lemma parseRecords_Forall (P : Commit -> Prop) (segments : list jsstring)
  (commits : list Commit) :
  (forall curr commit, parseRecord curr = Ok commit -> P commit) ->
  parseRecords segments = Ok commits -> Forall P commits.
Proof.
  intros HP. revert commits. induction segments as [|curr rest IH]; intros commits; simpl.
  - intros [= <-]. constructor.
  - destruct (parseRecord curr) as [c|e] eqn:Ec; simpl; [|discriminate].
    destruct (parseRecords rest) as [cs|e]; simpl; [|discriminate].
    intros [= <-]. constructor; [exact (HP _ _ Ec) | now apply IH].
Qed.

Lemma group_get_Forall (R : list Commit -> Prop) (key : GroupKey) (acc : CommitGroup)
  (l : list Commit) :
  Forall (fun entry => R (snd entry)) acc -> group_get key acc = Some l -> R l.
Proof.
  induction acc as [|[k v] acc IH]; intros Hall; simpl; [discriminate|].
  inversion Hall as [|? ? Hv Hrest]; subst.
  destruct (GroupKey_eqb key k); [now intros [= <-] | now apply IH].
Qed.

Lemma group_set_Forall (R : list Commit -> Prop) (key : GroupKey)
  (value : list Commit) (acc : CommitGroup) :
  R value ->
  Forall (fun entry => R (snd entry)) acc ->
  Forall (fun entry => R (snd entry)) (group_set key value acc).
Proof.
  intros Hvalue. induction acc as [|[k v] acc IH]; intros Hacc; simpl.
  - now repeat constructor.
  - inversion Hacc as [|? ? Hv Hrest]; subst.
    destruct (GroupKey_eqb key k); constructor; auto.
Qed.

Lemma fold_add_commit_Forall (P : Commit -> Prop) (commits : list Commit)
  (state : CommitGroup * list jsstring) :
  Forall P commits ->
  Forall (fun entry => snd entry <> [] /\ Forall P (snd entry)) (fst state) ->
  Forall (fun entry => snd entry <> [] /\ Forall P (snd entry))
         (fst (fold_left add_commit commits state)).
Proof.
  revert state. induction commits as [|c commits IH]; intros [acc cs] Hall; simpl.
  - trivial.
  - inversion Hall as [|? ? Hc Hrest]; subst.
    intros Hacc. apply IH; [assumption|]. cbn [fst].
    apply (group_set_Forall (fun l => l <> [] /\ Forall P l)); [|assumption].
    split.
    + intros H. now apply app_eq_nil in H as [_ H].
    + apply Forall_app. split; [|now repeat constructor].
      destruct (group_get (bucket_key c) acc) as [l|] eqn:E; [|constructor].
      exact (proj2 (group_get_Forall (fun l => l <> [] /\ Forall P l) _ _ _ Hacc E)).
Qed.

(** Every bucket of a log that parses is a non-empty list of commits of
    records of the log. *)
Lemma parseCommits_entries (P : Commit -> Prop) (output : jsstring)
  (commitGroups : CommitGroup) (contributors : list jsstring) :
  (forall curr commit, parseRecord curr = Ok commit -> P commit) ->
  parseCommits output = Ok (commitGroups, contributors) ->
  Forall (fun entry => snd entry <> [] /\ Forall P (snd entry)) commitGroups.
Proof.
  intros HP Hparse. rewrite parseCommits_eq in Hparse.
  destruct (parseRecords (records output)) as [commits|e] eqn:Ec; [|discriminate].
  cbn [bind] in Hparse. injection Hparse as Hfold.
  replace commitGroups with (fst (fold_left add_commit commits ([], [])))
    by now rewrite Hfold.
  apply fold_add_commit_Forall; [|constructor].
  exact (parseRecords_Forall P _ _ HP Ec).
Qed.

(** X8.  The bullets of a bucket of a parsed log can be read back line by
    line: splitting the text of the bullets of the bucket on line feeds
    gives one line per commit, in the order of the bucket, each the bullet
    of its commit. *)
Theorem bullets_line_by_line (output : jsstring) (commitGroups : CommitGroup)
  (contributors : list jsstring) (key : GroupKey) (commits : list Commit) :
  parseCommits output = Ok (commitGroups, contributors) ->
  In (key, commits) commitGroups ->
  split LF (bullets commits) = map bullet commits
  /\ List.length (split LF (bullets commits)) = List.length commits.
Proof.
  intros Hparse Hin.
  pose proof (parseCommits_entries
                (fun c => on_one_line (commitHashAbbr c) = true
                          /\ on_one_line (subject c) = true)
                output commitGroups contributors) as Hall.
  rewrite Forall_forall in Hall.
  destruct (Hall (fun curr c Hp =>
                    let H := parseRecord_one_line curr c Hp in
                    conj (proj1 H) (proj2 (proj2 H)))
                 Hparse (key, commits) Hin) as [Hne Hlines].
  cbn [snd] in Hne, Hlines.
  assert (split LF (bullets commits) = map bullet commits) as Hsplit.
  { unfold bullets. apply split_join.
    - discriminate.
    - destruct commits; [congruence | discriminate].
    - apply Forall_forall. intros line Hline.
      apply in_map_iff in Hline as (c & <- & Hc).
      rewrite Forall_forall in Hlines. destruct (Hlines c Hc) as [Hh Hs].
      apply free_before_LF. now apply bullet_on_one_line. }
  split; [exact Hsplit|]. now rewrite Hsplit, length_map.
Qed.

Lemma bullets_line_by_line_witness :
  parseCommits (format_log [record_fix; record_feat; record_fix])
  = Ok ([(key_type ct_fix, [commit_fix; commit_fix]); (key_type ct_feat, [commit_feat])],
        [lit "Bob"; lit "Alice"])
  /\ In (key_type ct_fix, [commit_fix; commit_fix])
        [(key_type ct_fix, [commit_fix; commit_fix]); (key_type ct_feat, [commit_feat])]
  /\ split LF (bullets [commit_fix; commit_fix]) = map bullet [commit_fix; commit_fix]
  /\ List.length (split LF (bullets [commit_fix; commit_fix])) = 2.
Proof.
  split; [reflexivity|]. split; [now left|].
  apply (bullets_line_by_line (format_log [record_fix; record_feat; record_fix])
           [(key_type ct_fix, [commit_fix; commit_fix]); (key_type ct_feat, [commit_feat])]
           [lit "Bob"; lit "Alice"] (key_type ct_fix) [commit_fix; commit_fix]);
    [reflexivity | now left].
Defined.

(* ===================================================================== *)
(** * The shape of the document *)
(* ===================================================================== *)

Lemma trimStart_stop (s rest : jsstring) (c : N) :
  is_white_space c = false ->
  trimStart (s ++ c :: rest) = trimStart s ++ c :: rest.
Proof.
  intros Hc. induction s as [|x s IH]; simpl.
  - now rewrite Hc.
  - destruct (is_white_space x); [exact IH | reflexivity].
Qed.

Lemma trimEnd_stop (s rest : jsstring) (c : N) :
  is_white_space c = false ->
  trimEnd (s ++ c :: rest) = s ++ c :: trimEnd rest.
Proof.
  intros Hc. unfold trimEnd.
  rewrite rev_app_distr. cbn [rev]. rewrite <- app_assoc. cbn [app].
  rewrite (trimStart_stop _ _ _ Hc).
  rewrite rev_app_distr. cbn [rev]. rewrite rev_involutive, <- app_assoc.
  reflexivity.
Qed.

Lemma sections_start (commitGroups : CommitGroup) :
  sections_in_insertion_order commitGroups = []
  \/ exists more,
       sections_in_insertion_order commitGroups = LF ++ lit "## " ++ more.
Proof.
  induction commitGroups as [|[[|t] commits] g IH]; cbn [sections_in_insertion_order flat_map].
  - now left.
  - exact IH.
  - destruct commits as [|c commits]; [exact IH|].
    right. unfold entry_section, section.
    eexists. rewrite <- !app_assoc. reflexivity.
Qed.

Lemma render_breaking_start (commitGroups : CommitGroup) :
  render_breaking commitGroups = []
  \/ exists more, render_breaking commitGroups = lit "## " ++ more.
Proof.
  unfold render_breaking.
  destruct (group_get key_breaking commitGroups) as [commits|]; [|now left].
  destruct (Nat.ltb 0 (List.length commits)); [|now left].
  right. eexists (lit "Breaking Changes:" ++ _). reflexivity.
Qed.

(** What is left of the text before the thanks once the white space at its
    start is removed: nothing, or a text that begins with a heading. *)
Lemma before_thanks_start (commitGroups : CommitGroup) :
  trimStart (render_breaking commitGroups
             ++ sections_in_insertion_order commitGroups ++ LF) = []
  \/ exists more,
       trimStart (render_breaking commitGroups
                  ++ sections_in_insertion_order commitGroups ++ LF)
       = lit "## " ++ more.
Proof.
  destruct (render_breaking_start commitGroups) as [->|[more ->]].
  - cbn [app]. destruct (sections_start commitGroups) as [->|[more ->]].
    + now left.
    + right. eexists. rewrite <- !app_assoc. reflexivity.
  - right. eexists. rewrite <- !app_assoc. reflexivity.
Qed.

(** The document, with the effect of [trim] worked out. *)
Lemma renderChangeLogMarkdown_body_thanks (commitGroups : CommitGroup)
  (contributors : list jsstring) :
  renderChangeLogMarkdown_body (commitGroups, contributors)
  = trimStart (render_breaking commitGroups
               ++ sections_in_insertion_order commitGroups ++ LF)
    ++ lit "## Thanks:" ++ trimEnd (LF ++ render_contributors contributors).
Proof.
  rewrite renderChangeLogMarkdown_body_eq. unfold trim, thanks.
  set (before := render_breaking commitGroups
                 ++ sections_in_insertion_order commitGroups ++ LF).
  set (after := LF ++ render_contributors contributors).
  replace (render_breaking commitGroups
           ++ sections_in_insertion_order commitGroups
           ++ LF ++ lit "## Thanks:" ++ after)
    with (before ++ 35%N :: lit "# Thanks:" ++ after)
    by (unfold before; now rewrite <- !app_assoc).
  rewrite trimStart_stop by reflexivity.
  replace (trimStart before ++ 35%N :: lit "# Thanks:" ++ after)
    with ((trimStart before ++ lit "## Thanks") ++ 58%N :: after)
    by now rewrite <- app_assoc.
  rewrite trimEnd_stop by reflexivity.
  now rewrite <- app_assoc.
Qed.

Lemma join_cons (sep p : jsstring) (parts : list jsstring) :
  parts <> [] -> join sep (p :: parts) = p ++ sep ++ join sep parts.
Proof. destruct parts; [congruence | reflexivity]. Qed.

(** The last code unit of the last part is the last one of the join. *)
Lemma join_last (sep : jsstring) (parts : list jsstring) (p : jsstring) (c : N) :
  exists before, join sep (parts ++ [p ++ [c]]) = before ++ [c].
Proof.
  induction parts as [|x parts [before IH]].
  - now exists p.
  - cbn [app]. rewrite join_cons by (destruct parts; discriminate).
    rewrite IH. exists (x ++ sep ++ before). now rewrite <- !app_assoc.
Qed.

(** X9.  The changelog always begins with a heading: its first characters
    are [## ], whatever the groups and the contributors are; there is no
    blank line before the first section, also when there is no breaking
    section. *)
Theorem document_begins_with_heading (commitGroups : CommitGroup)
  (contributors : list jsstring) :
  exists rest,
    renderChangeLogMarkdown_body (commitGroups, contributors) = lit "## " ++ rest.
Proof.
  rewrite renderChangeLogMarkdown_body_thanks.
  destruct (before_thanks_start commitGroups) as [->|[more ->]].
  - eexists (lit "Thanks:" ++ _). reflexivity.
  - eexists. rewrite <- !app_assoc. reflexivity.
Qed.

(** X10.  The thanks heading is always in the document, after the breaking
    section and the category sections, which [trim] leaves as they are but
    for the line feed at the very start; only the line of the contributors
    can lose white space at its end.  With no contributors the document
    ends with the heading [## Thanks:]. *)
Theorem document_ends_with_thanks (commitGroups : CommitGroup) :
  (forall contributors,
     renderChangeLogMarkdown_body (commitGroups, contributors)
     = trimStart (render_breaking commitGroups
                  ++ sections_in_insertion_order commitGroups ++ LF)
       ++ lit "## Thanks:" ++ trimEnd (LF ++ render_contributors contributors))
  /\ renderChangeLogMarkdown_body (commitGroups, [])
     = trimStart (render_breaking commitGroups
                  ++ sections_in_insertion_order commitGroups ++ LF)
       ++ lit "## Thanks:"
  /\ (forall name names,
        name <> [] -> is_white_space (last name 0%N) = false ->
        renderChangeLogMarkdown_body (commitGroups, names ++ [name])
        = trimStart (render_breaking commitGroups
                     ++ sections_in_insertion_order commitGroups ++ LF)
          ++ lit "## Thanks:" ++ LF ++ render_contributors (names ++ [name])).
Proof.
  split; [|split].
  - intros contributors. apply renderChangeLogMarkdown_body_thanks.
  - rewrite renderChangeLogMarkdown_body_thanks.
    change (trimEnd (LF ++ render_contributors [])) with (@nil N).
    now rewrite app_nil_r.
  - intros name names Hname Hlast.
    rewrite renderChangeLogMarkdown_body_thanks. do 2 f_equal.
    assert (exists before, render_contributors (names ++ [name])
                           = before ++ [last name 0%N]) as [before Hbefore].
    { unfold render_contributors. rewrite map_app. cbn [map].
      replace (lit "@" ++ name) with ((lit "@" ++ removelast name) ++ [last name 0%N])
        by (rewrite <- app_assoc; now rewrite <- (app_removelast_last 0%N Hname)).
      apply join_last. }
    rewrite Hbefore.
    change (LF ++ before ++ [last name 0%N]) with ((LF ++ before) ++ last name 0%N :: []).
    rewrite trimEnd_stop by assumption. reflexivity.
Qed.

Lemma document_ends_with_thanks_witness :
  lit "Bob" <> []
  /\ is_white_space (last (lit "Bob") 0%N) = false
  /\ renderChangeLogMarkdown_body
       ([(key_type ct_feat, [commit_feat])], [lit "Alice"] ++ [lit "Bob"])
     = trimStart (render_breaking [(key_type ct_feat, [commit_feat])]
                  ++ sections_in_insertion_order [(key_type ct_feat, [commit_feat])]
                  ++ LF)
       ++ lit "## Thanks:" ++ LF ++ render_contributors ([lit "Alice"] ++ [lit "Bob"]).
Proof.
  split; [discriminate|]. split; [reflexivity|].
  apply (proj2 (proj2 (document_ends_with_thanks [(key_type ct_feat, [commit_feat])]))
           (lit "Bob") [lit "Alice"]);
    [discriminate | reflexivity].
Defined.

(* ===================================================================== *)
(** * The breaking marker of the body *)
(* ===================================================================== *)

Lemma toLowerCase_unit_head (c : N) (rest : jsstring) :
  startsWith [98%N] (toLowerCase_unit c ++ rest) = true ->
  c = 98%N \/ c = 66%N.
Proof.
  unfold toLowerCase_unit.
  destruct (N.leb 65 c && N.leb c 90) eqn:Eupper.
  - cbn [app startsWith]. rewrite andb_true_r. intros H.
    apply N.eqb_eq in H. right. lia.
  - destruct (N.eqb c 8490); [discriminate|].
    destruct (N.eqb c 304); [discriminate|].
    cbn [app startsWith]. rewrite andb_true_r. intros H.
    apply N.eqb_eq in H. now left.
Qed.

(** X11.  The body marks a commit as breaking only by its very first
    characters: when the flag comes from the body and not from the
    subject, the body begins with [b] or [B].  A marker after a blank line,
    after white space or in a footer of the message is not seen. *)
Theorem body_marker_only_at_start (subject : jsstring) (body : option jsstring)
  (detail : CommitDetail) :
  getCommitDetail subject body = Ok detail ->
  has_breaking_marker subject = false ->
  detail_breaking detail = true ->
  exists c rest, body = Some (c :: rest) /\ (c = 98%N \/ c = 66%N).
Proof.
  intros Hd Hsubject Hbreaking.
  apply getCommitDetail_Ok in Hd as (_ & _ & Hb).
  rewrite Hb, Hsubject in Hbreaking. cbn [orb] in Hbreaking.
  destruct body as [[|c rest]|]; try discriminate Hbreaking.
  exists c, rest. split; [reflexivity|].
  unfold body_marks_breaking, toLowerCase in Hbreaking. cbn [flat_map] in Hbreaking.
  apply (toLowerCase_unit_head c (flat_map toLowerCase_unit rest)).
  apply startsWith_spec in Hbreaking as [more Hmore].
  apply startsWith_spec. exists (lit "reaking change:" ++ more). exact Hmore.
Qed.

Lemma body_marker_only_at_start_witness :
  getCommitDetail (lit "feat: add X") (Some (lit "Breaking change: the API moved"))
  = Ok (mkCommitDetail ct_feat true)
  /\ has_breaking_marker (lit "feat: add X") = false
  /\ getCommitDetail (lit "feat: add X")
       (Some (LF ++ lit "BREAKING CHANGE: the API moved"))
     = Ok (mkCommitDetail ct_feat false)
  /\ exists c rest,
       Some (lit "Breaking change: the API moved") = Some (c :: rest)
       /\ (c = 98%N \/ c = 66%N).
Proof.
  split; [reflexivity|]. split; [reflexivity|]. split; [reflexivity|].
  apply (body_marker_only_at_start (lit "feat: add X")
           (Some (lit "Breaking change: the API moved"))
           (mkCommitDetail ct_feat true));
    reflexivity.
Defined.

Lemma toLowerCase_app (a b : jsstring) :
  toLowerCase (a ++ b) = toLowerCase a ++ toLowerCase b.
Proof. unfold toLowerCase. apply flat_map_app. Qed.

Lemma toLowerCase_same_letter (s lower : jsstring) :
  Forall2 same_letter s lower ->
  Forall (fun y => toLowerCase_unit y = [y]) lower ->
  toLowerCase s = lower.
Proof.
  intros Hsame. induction Hsame as [|x y s lower Hxy Hrest IH]; intros Hstable.
  - reflexivity.
  - inversion Hstable as [|? ? Hy Hlower]; subst.
    unfold toLowerCase in *. cbn [flat_map]. rewrite (IH Hlower).
    destruct Hxy as [->|(Hlo & Hhi & ->)]; [now rewrite Hy|].
    unfold toLowerCase_unit.
    apply N.leb_le in Hlo, Hhi. now rewrite Hlo, Hhi.
Qed.

(** X12.  The marker of the body is recognised in every mix of capital and
    small letters: a body that begins with [breaking change:] written in
    any case marks the commit as breaking, whatever follows the marker and
    whatever the subject (with a type prefix) is. *)
Theorem body_marker_any_case (subject marker rest : jsstring) :
  begins_with_type_prefix subject = true ->
  Forall2 same_letter marker (lit "breaking change:") ->
  exists detail,
    getCommitDetail subject (Some (marker ++ rest)) = Ok detail
    /\ detail_breaking detail = true.
Proof.
  intros Hprefix Hmarker.
  destruct (getCommitDetail_prefix subject (Some (marker ++ rest)) Hprefix)
    as [detail Hd].
  exists detail. split; [exact Hd|].
  apply getCommitDetail_Ok in Hd as (_ & _ & ->).
  apply orb_true_iff. right. unfold body_marks_breaking.
  rewrite toLowerCase_app.
  rewrite (toLowerCase_same_letter marker (lit "breaking change:") Hmarker).
  - apply startsWith_app.
  - repeat constructor.
Qed.

Lemma body_marker_any_case_witness :
  begins_with_type_prefix (lit "docs: explain Z") = true
  /\ Forall2 same_letter (lit "BREAKING Change:") (lit "breaking change:")
  /\ exists detail,
       getCommitDetail (lit "docs: explain Z")
         (Some (lit "BREAKING Change:" ++ lit " Z is gone")) = Ok detail
       /\ detail_breaking detail = true.
Proof.
  assert (Forall2 same_letter (lit "BREAKING Change:") (lit "breaking change:"))
    as Hsame.
  { repeat (constructor;
            [first [left; reflexivity
                   | right; split; [discriminate | split; [discriminate | reflexivity]]]|]).
    constructor. }
  split; [reflexivity|]. split; [exact Hsame|].
  apply (body_marker_any_case (lit "docs: explain Z") (lit "BREAKING Change:")
           (lit " Z is gone"));
    [reflexivity | exact Hsame].
Defined.

(* ===================================================================== *)
(** * The release flow, step by step *)
(* ===================================================================== *)

Section Steps.

Variable env_GITHUB_TOKEN : option jsstring.
Variable execa : list event -> jsstring -> list jsstring -> result jsstring.
Variable axios : list event -> jsstring -> jsstring -> GitHubReleaseRequest
                 -> result GitHubReleaseResponse.

Ltac flow :=
  unfold generateChangelog, renderChangeLogMarkdown, getCommits, createGitHubPush,
    getParentHashFromVersionTag, createGitHubRelease, IO_bind, IO_ret, IO_throw,
    runCommand, console_log, event_git_log, event_git_push, event_git_rev_parse,
    event_release.

Ltac step H := rewrite <- ?app_assoc; cbn [app]; rewrite H; cbv beta iota.

(** X13.  When the log cannot be read, or does not parse, [generateChangelog]
    is rejected with that exception after the log reader alone has run:
    nothing is printed, pushed or released, with and without [dryRun]. *)
Theorem generateChangelog_log_failure (from to owner repo : jsstring) (dryRun : bool)
  (trace : list event) (e : exn) :
  execa trace (lit "git")
    (getCommits_args from (if dryRun then lit "HEAD" else to ++ lit "^")) = Throw e
  \/ (exists output,
        execa trace (lit "git")
          (getCommits_args from (if dryRun then lit "HEAD" else to ++ lit "^"))
        = Ok output
        /\ parseCommits output = Throw e) ->
  generateChangelog env_GITHUB_TOKEN execa axios from to owner repo dryRun trace
  = (trace ++ [event_git_log from (if dryRun then lit "HEAD" else to ++ lit "^")],
     Throw e).
Proof.
  intros [Hlog|(output & Hlog & Hparse)]; flow; rewrite Hlog; cbv beta iota.
  - reflexivity.
  - now rewrite Hparse.
Qed.

(** X14.  Without [dryRun] and without a token the missing credential is
    found only after the push: the log is read and printed, the tags are
    pushed, the tag is resolved, and then [createGitHubRelease] throws; no
    request is sent to the release API. *)
Theorem generateChangelog_without_token (from to owner repo : jsstring)
  (trace : list event) (output pushed commitHash : jsstring)
  (commits : CommitGroup * list jsstring) :
  token_missing env_GITHUB_TOKEN = true ->
  execa trace (lit "git") (getCommits_args from (to ++ lit "^")) = Ok output ->
  parseCommits output = Ok commits ->
  execa (trace ++ [event_git_log from (to ++ lit "^");
                   ConsoleLog (renderChangeLogMarkdown_body commits)])
        (lit "git") [lit "push"; lit "--follow-tags"] = Ok pushed ->
  execa (trace ++ [event_git_log from (to ++ lit "^");
                   ConsoleLog (renderChangeLogMarkdown_body commits);
                   event_git_push])
        (lit "git") [lit "rev-parse"; to ++ lit "^{}"] = Ok commitHash ->
  generateChangelog env_GITHUB_TOKEN execa axios from to owner repo false trace
  = (trace ++ [event_git_log from (to ++ lit "^");
               ConsoleLog (renderChangeLogMarkdown_body commits);
               event_git_push;
               event_git_rev_parse to],
     Throw (Error (lit "No " ++ [34%N] ++ lit "GH_TOKEN" ++ [34%N]
                   ++ lit " found in environment variables."))).
Proof.
  intros Htoken Hlog Hparse Hpush Hrev. revert Hpush Hrev. flow. intros Hpush Hrev.
  rewrite Hlog. cbv beta iota. rewrite Hparse. cbv beta iota.
  step Hpush. step Hrev. rewrite Htoken.
  rewrite <- ?app_assoc. reflexivity.
Qed.

(** X15.  Without [dryRun], with a token and with collaborators that all
    answer, [generateChangelog] does six things in this order: it reads the
    log of [from...to^], prints the changelog, pushes with the tags,
    resolves [to^{}], posts the release and prints its address.  The body
    of the release is the changelog that was printed, its tag is [to], its
    name [Release v] followed by [to], its target the hash that the tag
    resolved to, and the request carries the token as bearer. *)
Theorem generateChangelog_release (from to owner repo token : jsstring)
  (trace : list event) (output pushed commitHash : jsstring)
  (commits : CommitGroup * list jsstring) (res : GitHubReleaseResponse) :
  env_GITHUB_TOKEN = Some token ->
  token <> [] ->
  execa trace (lit "git") (getCommits_args from (to ++ lit "^")) = Ok output ->
  parseCommits output = Ok commits ->
  execa (trace ++ [event_git_log from (to ++ lit "^");
                   ConsoleLog (renderChangeLogMarkdown_body commits)])
        (lit "git") [lit "push"; lit "--follow-tags"] = Ok pushed ->
  execa (trace ++ [event_git_log from (to ++ lit "^");
                   ConsoleLog (renderChangeLogMarkdown_body commits);
                   event_git_push])
        (lit "git") [lit "rev-parse"; to ++ lit "^{}"] = Ok commitHash ->
  axios (trace ++ [event_git_log from (to ++ lit "^");
                   ConsoleLog (renderChangeLogMarkdown_body commits);
                   event_git_push;
                   event_git_rev_parse to])
        (lit "https://api.github.com/repos/" ++ owner ++ lit "/" ++ repo
         ++ lit "/releases")
        (lit "Bearer " ++ token)
        (mkGitHubReleaseRequest (lit "Release v" ++ to) to
           (renderChangeLogMarkdown_body commits) commitHash)
  = Ok res ->
  generateChangelog env_GITHUB_TOKEN execa axios from to owner repo false trace
  = (trace ++ [event_git_log from (to ++ lit "^");
               ConsoleLog (renderChangeLogMarkdown_body commits);
               event_git_push;
               event_git_rev_parse to;
               event_release owner repo token to
                 (renderChangeLogMarkdown_body commits) commitHash;
               ConsoleLog (lit "Release published: " ++ html_url res)],
     Ok tt).
Proof.
  intros Htoken Hne Hlog Hparse Hpush Hrev Hpost.
  assert (token_missing env_GITHUB_TOKEN = false) as Hpresent.
  { rewrite Htoken. unfold token_missing. destruct token; [congruence | reflexivity]. }
  revert Hpush Hrev Hpost. flow. intros Hpush Hrev Hpost.
  rewrite Hlog. cbv beta iota. rewrite Hparse. cbv beta iota.
  step Hpush. step Hrev. rewrite Hpresent, Htoken.
  step Hpost. rewrite <- ?app_assoc. reflexivity.
Qed.

(** X16.  When the push fails nothing is done after it: the tag is not
    resolved and no release is requested.  When the push goes through and
    the tag cannot be resolved, no release is requested either. *)
Theorem generateChangelog_push_failure (from to owner repo : jsstring)
  (trace : list event) (output : jsstring)
  (commits : CommitGroup * list jsstring) (e : exn) :
  execa trace (lit "git") (getCommits_args from (to ++ lit "^")) = Ok output ->
  parseCommits output = Ok commits ->
  (execa (trace ++ [event_git_log from (to ++ lit "^");
                    ConsoleLog (renderChangeLogMarkdown_body commits)])
         (lit "git") [lit "push"; lit "--follow-tags"] = Throw e ->
   generateChangelog env_GITHUB_TOKEN execa axios from to owner repo false trace
   = (trace ++ [event_git_log from (to ++ lit "^");
                ConsoleLog (renderChangeLogMarkdown_body commits);
                event_git_push],
      Throw e))
  /\ (forall pushed,
        execa (trace ++ [event_git_log from (to ++ lit "^");
                         ConsoleLog (renderChangeLogMarkdown_body commits)])
              (lit "git") [lit "push"; lit "--follow-tags"] = Ok pushed ->
        execa (trace ++ [event_git_log from (to ++ lit "^");
                         ConsoleLog (renderChangeLogMarkdown_body commits);
                         event_git_push])
              (lit "git") [lit "rev-parse"; to ++ lit "^{}"] = Throw e ->
        generateChangelog env_GITHUB_TOKEN execa axios from to owner repo false trace
        = (trace ++ [event_git_log from (to ++ lit "^");
                     ConsoleLog (renderChangeLogMarkdown_body commits);
                     event_git_push;
                     event_git_rev_parse to],
           Throw e)).
Proof.
  intros Hlog Hparse. split.
  - intros Hpush. revert Hpush. flow. intros Hpush.
    rewrite Hlog. cbv beta iota. rewrite Hparse. cbv beta iota.
    step Hpush. rewrite <- ?app_assoc. reflexivity.
  - intros pushed Hpush Hrev. revert Hpush Hrev. flow. intros Hpush Hrev.
    rewrite Hlog. cbv beta iota. rewrite Hparse. cbv beta iota.
    step Hpush. step Hrev. rewrite <- ?app_assoc. reflexivity.
Qed.

End Steps.

Lemma generateChangelog_log_failure_witness :
  (example_execa_oops [] (lit "git")
     (getCommits_args (lit "1.0.0") (lit "1.1.0" ++ lit "^"))
   = Throw (commitType_error (lit "undefined"))
   \/ exists output,
        example_execa_oops [] (lit "git")
          (getCommits_args (lit "1.0.0") (lit "1.1.0" ++ lit "^"))
        = Ok output
        /\ parseCommits output = Throw (commitType_error (lit "undefined")))
  /\ generateChangelog (Some (lit "token")) example_execa_oops example_axios
       (lit "1.0.0") (lit "1.1.0") (lit "virtuallyunknown") (lit "nx-monorepo") false []
     = ([] ++ [event_git_log (lit "1.0.0") (lit "1.1.0" ++ lit "^")],
        Throw (commitType_error (lit "undefined"))).
Proof.
  assert (example_execa_oops [] (lit "git")
            (getCommits_args (lit "1.0.0") (lit "1.1.0" ++ lit "^"))
          = Throw (commitType_error (lit "undefined"))
          \/ exists output,
               example_execa_oops [] (lit "git")
                 (getCommits_args (lit "1.0.0") (lit "1.1.0" ++ lit "^"))
               = Ok output
               /\ parseCommits output = Throw (commitType_error (lit "undefined")))
    as Hlog.
  { right. exists (format_log [record_feat; record_oops]). split; reflexivity. }
  split; [exact Hlog|].
  exact (generateChangelog_log_failure (Some (lit "token")) example_execa_oops
           example_axios (lit "1.0.0") (lit "1.1.0") (lit "virtuallyunknown")
           (lit "nx-monorepo") false [] (commitType_error (lit "undefined")) Hlog).
Defined.

Lemma generateChangelog_without_token_witness :
  token_missing None = true
  /\ parseCommits (format_log [record_feat; record_fix_bang]) = Ok example_commits
  /\ generateChangelog None example_execa example_axios
       (lit "1.0.0") (lit "1.1.0") (lit "virtuallyunknown") (lit "nx-monorepo") false []
     = ([] ++ [event_git_log (lit "1.0.0") (lit "1.1.0" ++ lit "^");
               ConsoleLog (renderChangeLogMarkdown_body example_commits);
               event_git_push;
               event_git_rev_parse (lit "1.1.0")],
        Throw (Error (lit "No " ++ [34%N] ++ lit "GH_TOKEN" ++ [34%N]
                      ++ lit " found in environment variables."))).
Proof.
  split; [reflexivity|]. split; [reflexivity|].
  apply (generateChangelog_without_token None example_execa example_axios
           (lit "1.0.0") (lit "1.1.0") (lit "virtuallyunknown") (lit "nx-monorepo") []
           (format_log [record_feat; record_fix_bang]) []
           (lit "e4f5a6b7c8d9e0f1a2b3c4d5e6f7a8b9c0d1e2f3") example_commits);
    reflexivity.
Defined.

Lemma generateChangelog_release_witness :
  Some (lit "token") = Some (lit "token")
  /\ lit "token" <> []
  /\ parseCommits (format_log [record_feat; record_fix_bang]) = Ok example_commits
  /\ generateChangelog (Some (lit "token")) example_execa example_axios
       (lit "1.0.0") (lit "1.1.0") (lit "virtuallyunknown") (lit "nx-monorepo") false []
     = ([] ++ [event_git_log (lit "1.0.0") (lit "1.1.0" ++ lit "^");
               ConsoleLog (renderChangeLogMarkdown_body example_commits);
               event_git_push;
               event_git_rev_parse (lit "1.1.0");
               event_release (lit "virtuallyunknown") (lit "nx-monorepo") (lit "token")
                 (lit "1.1.0") (renderChangeLogMarkdown_body example_commits)
                 (lit "e4f5a6b7c8d9e0f1a2b3c4d5e6f7a8b9c0d1e2f3");
               ConsoleLog
                 (lit "Release published: "
                  ++ lit "https://github.com/virtuallyunknown/nx-monorepo/releases/tag/1.1.0")],
        Ok tt).
Proof.
  split; [reflexivity|]. split; [discriminate|]. split; [reflexivity|].
  apply (generateChangelog_release (Some (lit "token")) example_execa example_axios
           (lit "1.0.0") (lit "1.1.0") (lit "virtuallyunknown") (lit "nx-monorepo")
           (lit "token") [] (format_log [record_feat; record_fix_bang]) []
           (lit "e4f5a6b7c8d9e0f1a2b3c4d5e6f7a8b9c0d1e2f3") example_commits
           (mkGitHubReleaseResponse
              (lit "https://github.com/virtuallyunknown/nx-monorepo/releases/tag/1.1.0")));
    try reflexivity. discriminate.
Defined.

Lemma generateChangelog_push_failure_witness :
  example_execa_rejected [] (lit "git")
    (getCommits_args (lit "1.0.0") (lit "1.1.0" ++ lit "^"))
  = Ok (format_log [record_feat; record_fix_bang])
  /\ parseCommits (format_log [record_feat; record_fix_bang]) = Ok example_commits
  /\ generateChangelog (Some (lit "token")) example_execa_rejected example_axios
       (lit "1.0.0") (lit "1.1.0") (lit "virtuallyunknown") (lit "nx-monorepo") false []
     = ([] ++ [event_git_log (lit "1.0.0") (lit "1.1.0" ++ lit "^");
               ConsoleLog (renderChangeLogMarkdown_body example_commits);
               event_git_push],
        Throw (Error (lit "remote rejected"))).
Proof.
  split; [reflexivity|]. split; [reflexivity|].
  apply (proj1 (generateChangelog_push_failure (Some (lit "token"))
                  example_execa_rejected example_axios
                  (lit "1.0.0") (lit "1.1.0") (lit "virtuallyunknown")
                  (lit "nx-monorepo") [] (format_log [record_feat; record_fix_bang])
                  example_commits (Error (lit "remote rejected"))
                  eq_refl eq_refl)).
  reflexivity.
Defined.

(* ===================================================================== *)
(** * The version tag and the legacy class *)
(* ===================================================================== *)

(** X17.  [getLatestVersionTag] runs [git describe] once and returns what
    [clean] makes of its output; the tag it returns is never empty.  When
    [clean] gives [null] it throws, and the message names [null], not the
    output of git. *)
Theorem getLatestVersionTag_result
  (execa : list event -> jsstring -> list jsstring -> result jsstring)
  (clean : jsstring -> option jsstring) (trace : list event) (output : jsstring) :
  execa trace (lit "git") [lit "describe"; lit "--tags"; lit "--abbrev=0"] = Ok output ->
  (forall tag,
     clean output = Some tag -> tag <> [] ->
     getLatestVersionTag execa clean trace
     = (trace ++ [RunCommand (lit "git") [lit "describe"; lit "--tags"; lit "--abbrev=0"]],
        Ok tag))
  /\ (clean output = None ->
      getLatestVersionTag execa clean trace
      = (trace ++ [RunCommand (lit "git") [lit "describe"; lit "--tags"; lit "--abbrev=0"]],
         Throw (Error (lit "null is not a valid semver"))))
  /\ (forall trace' tag,
        getLatestVersionTag execa clean trace = (trace', Ok tag) ->
        tag <> [] /\ clean output = Some tag).
Proof.
  intros Hrun. unfold getLatestVersionTag, IO_bind, runCommand. rewrite Hrun.
  split; [|split].
  - intros tag Hclean Hne. rewrite Hclean. unfold tag_missing.
    destruct tag; [congruence | reflexivity].
  - intros Hclean. rewrite Hclean. reflexivity.
  - intros trace' tag. destruct (clean output) as [[|c t]|]; cbn; try discriminate.
    intros [= _ <-]. split; [discriminate | reflexivity].
Qed.

Lemma getLatestVersionTag_result_witness :
  (fun _ _ _ => Ok (lit "v1.0.0")) ([] : list event) (lit "git")
    [lit "describe"; lit "--tags"; lit "--abbrev=0"] = Ok (lit "v1.0.0")
  /\ example_clean (lit "v1.0.0") = Some (lit "1.0.0")
  /\ getLatestVersionTag (fun _ _ _ => Ok (lit "v1.0.0")) example_clean []
     = ([] ++ [RunCommand (lit "git") [lit "describe"; lit "--tags"; lit "--abbrev=0"]],
        Ok (lit "1.0.0")).
Proof.
  split; [reflexivity|]. split; [reflexivity|].
  apply (proj1 (getLatestVersionTag_result (fun _ _ _ => Ok (lit "v1.0.0"))
                  example_clean [] (lit "v1.0.0") eq_refl));
    [reflexivity | discriminate].
Defined.

Lemma ReleaseChangelog_cmd_args (fromRef toRef : jsstring) :
  ReleaseChangelog_cmd fromRef toRef
  = join (lit " ") (lit "git" :: getCommits_args fromRef toRef).
Proof.
  unfold ReleaseChangelog_cmd, getCommits_args. cbn [join].
  rewrite <- !app_assoc. reflexivity.
Qed.

(** X18.  The legacy class reads the log with the command line that the
    canonical code passes to git as arguments, joined by spaces, and
    renders it in the same way: given a [from], it runs that one command,
    and when the shell answers as the process of the canonical code does,
    [renderToMarkdown] gives what [renderChangeLogMarkdown] gives.  Its
    upper bound is [to^] when a [to] is given and [HEAD] when not. *)
Theorem ReleaseChangelog_renderToMarkdown_same
  (execSync : list jsstring -> jsstring -> result jsstring)
  (clean : jsstring -> option jsstring)
  (execa : list event -> jsstring -> list jsstring -> result jsstring)
  (from : jsstring) (to : option jsstring) (ran : list jsstring) (trace : list event) :
  from <> [] ->
  execSync ran (join (lit " ")
                  (lit "git" :: getCommits_args from (ReleaseChangelog_toRef to)))
  = execa trace (lit "git") (getCommits_args from (ReleaseChangelog_toRef to)) ->
  fst (ReleaseChangelog_renderToMarkdown execSync clean (Some from) to ran)
  = ran ++ [join (lit " ")
              (lit "git" :: getCommits_args from (ReleaseChangelog_toRef to))]
  /\ snd (ReleaseChangelog_renderToMarkdown execSync clean (Some from) to ran)
     = snd (renderChangeLogMarkdown execa from (ReleaseChangelog_toRef to) trace)
  /\ (forall t, t <> [] -> ReleaseChangelog_toRef (Some t) = t ++ lit "^")
  /\ ReleaseChangelog_toRef None = lit "HEAD"
  /\ ReleaseChangelog_toRef (Some []) = lit "HEAD".
Proof.
  intros Hfrom Hsame.
  assert (truthy (Some from) = Some from) as Htruthy.
  { destruct from; [congruence | reflexivity]. }
  unfold ReleaseChangelog_renderToMarkdown, ReleaseChangelog_getCommits,
    Shell_bind, Shell_ret, Shell_throw, execSync_run.
  rewrite Htruthy. cbv beta iota. rewrite ReleaseChangelog_cmd_args, Hsame.
  unfold renderChangeLogMarkdown, getCommits, IO_bind, IO_ret, IO_throw, runCommand.
  destruct (execa trace (lit "git") _) as [output|e].
  - destruct (parseCommits output) as [commits|e];
      (split; [reflexivity|]); (split; [reflexivity|]);
      (split; [intros [|c t] Ht; [congruence | reflexivity] | split; reflexivity]).
  - split; [reflexivity|]. split; [reflexivity|].
    split; [intros [|c t] Ht; [congruence | reflexivity] | split; reflexivity].
Qed.

Lemma ReleaseChangelog_renderToMarkdown_same_witness :
  lit "1.0.0" <> []
  /\ example_execSync []
       (join (lit " ")
          (lit "git" :: getCommits_args (lit "1.0.0")
                          (ReleaseChangelog_toRef (Some (lit "1.1.0")))))
     = example_execa [] (lit "git")
         (getCommits_args (lit "1.0.0") (ReleaseChangelog_toRef (Some (lit "1.1.0"))))
  /\ snd (ReleaseChangelog_renderToMarkdown example_execSync example_clean
            (Some (lit "1.0.0")) (Some (lit "1.1.0")) [])
     = snd (renderChangeLogMarkdown example_execa (lit "1.0.0")
              (ReleaseChangelog_toRef (Some (lit "1.1.0"))) [])
  /\ snd (ReleaseChangelog_renderToMarkdown example_execSync example_clean
            (Some (lit "1.0.0")) (Some (lit "1.1.0")) [])
     = Ok (renderChangeLogMarkdown_body example_commits).
Proof.
  split; [discriminate|]. split; [reflexivity|].
  split; [|reflexivity].
  apply (ReleaseChangelog_renderToMarkdown_same example_execSync example_clean
           example_execa (lit "1.0.0") (Some (lit "1.1.0")) [] []);
    [discriminate | reflexivity].
Defined.

(** X19.  Without a [from], the legacy [getCommits] first asks for the
    latest version tag.  When that tag is not a valid version it throws
    before the log is read: [git describe] is the only command that ran.
    When it is, the log is read from the cleaned version on, not from the
    output of [git describe] as printed. *)
Theorem ReleaseChangelog_getCommits_latest_tag
  (execSync : list jsstring -> jsstring -> result jsstring)
  (clean : jsstring -> option jsstring)
  (from to : option jsstring) (ran : list jsstring) (described : jsstring) :
  truthy from = None ->
  execSync ran (lit "git describe --tags --abbrev=0") = Ok described ->
  (tag_missing (clean described) = true ->
   ReleaseChangelog_getCommits execSync clean from to ran
   = (ran ++ [lit "git describe --tags --abbrev=0"],
      Throw (semver_error (clean described))))
  /\ (forall tag,
        clean described = Some tag -> tag <> [] ->
        fst (ReleaseChangelog_getCommits execSync clean from to ran)
        = ran ++ [lit "git describe --tags --abbrev=0";
                  ReleaseChangelog_cmd tag (ReleaseChangelog_toRef to)]).
Proof.
  intros Hfrom Hrun.
  unfold ReleaseChangelog_getCommits, ReleaseChangelog_getLatestVersionTag,
    Shell_bind, Shell_ret, Shell_throw, execSync_run.
  rewrite Hfrom, Hrun. cbv beta iota. split.
  - intros Hmissing. now rewrite Hmissing.
  - intros tag Hclean Hne. rewrite Hclean.
    assert (tag_missing (Some tag) = false) as ->.
    { unfold tag_missing. destruct tag; [congruence | reflexivity]. }
    destruct (execSync _ (ReleaseChangelog_cmd tag (ReleaseChangelog_toRef to)))
      as [output|e]; [|now rewrite <- app_assoc].
    destruct (parseCommits output); cbn [fst]; now rewrite <- app_assoc.
Qed.

Lemma ReleaseChangelog_getCommits_latest_tag_witness :
  truthy None = None
  /\ example_execSync [] (lit "git describe --tags --abbrev=0") = Ok (lit "v1.0.0" ++ LF)
  /\ tag_missing ((fun _ => None) (lit "v1.0.0" ++ LF)) = true
  /\ ReleaseChangelog_getCommits example_execSync (fun _ => None) None None []
     = ([] ++ [lit "git describe --tags --abbrev=0"],
        Throw (Error (lit "null is not a valid semver")))
  /\ example_clean (lit "v1.0.0" ++ LF) = Some (lit "1.0.0")
  /\ fst (ReleaseChangelog_getCommits example_execSync example_clean None None [])
     = [] ++ [lit "git describe --tags --abbrev=0";
              ReleaseChangelog_cmd (lit "1.0.0") (lit "HEAD")].
Proof.
  split; [reflexivity|]. split; [reflexivity|]. split; [reflexivity|].
  split.
  - apply (proj1 (ReleaseChangelog_getCommits_latest_tag example_execSync
                    (fun _ => None) None None [] (lit "v1.0.0" ++ LF)
                    eq_refl eq_refl)).
    reflexivity.
  - split; [reflexivity|].
    apply (proj2 (ReleaseChangelog_getCommits_latest_tag example_execSync
                    example_clean None None [] (lit "v1.0.0" ++ LF)
                    eq_refl eq_refl) (lit "1.0.0"));
      [reflexivity | discriminate].
Defined.

